(** * hulk-react-utils: a shallow embedding of the helpers, the auth store,
      the alert channel and the fetch dispatcher.

    Sources embedded here:
    - [src/helpers.ts]  : [parseErrorText], [capitalizeFirstLetter],
                          [hulkFetchErrorParser];
    - [src/hoc.tsx]     : the auth [update] and [reset] of [withHulk];
    - [src/hooks.ts]    : [redirect], [usePathname], [useHulkAlert]
                          ([push], [pop]) and [useHulkFetch]
                          ([validateThreshold], [dispatch]).

    JavaScript strings are sequences of UTF-16 code units; they are kept
    as lists of code units so that [charAt], [slice] and the escapes of
    [JSON.parse] mean here what they mean in the engine. *)

From Stdlib Require Import List NArith ZArith Bool String Ascii Lia.
Import ListNotations.

Set Implicit Arguments.
Set Warnings "-register-all".

(* ================================================================== *)
(** * JavaScript strings *)
(* ================================================================== *)

Module JS.

Definition jsstring := list N.

(** A string literal of the source, one code unit per character. *)
Definition lit (s : string) : jsstring :=
  map N_of_ascii (list_ascii_of_string s).

(** The same, with every apostrophe standing for a double quote: the way
    JSON texts are written down in this file. *)
Definition quoted (s : string) : jsstring :=
  map (fun c => if N.eqb c 39 then 34%N else c) (lit s).

Fixpoint str_eqb (a b : jsstring) : bool :=
  match a, b with
  | [], [] => true
  | x :: a', y :: b' => N.eqb x y && str_eqb a' b'
  | _, _ => false
  end.

(** What a running piece of JavaScript can end with. *)
Inductive exn := TypeError | SyntaxError | Raised (what : jsstring).

Inductive completion (A : Type) : Type :=
| Normal (a : A)
| Throw (e : exn).
Arguments Normal {A} a.
Arguments Throw {A} e.

Definition cbind {A B} (c : completion A) (k : A -> completion B)
  : completion B :=
  match c with
  | Normal a => k a
  | Throw e => Throw e
  end.

Definition cmap {A B} (f : A -> B) (c : completion A) : completion B :=
  cbind c (fun a => Normal (f a)).

(** [xs.map(f)] where [f] may throw: the first exception aborts the map. *)
Fixpoint map_throwing {A B} (f : A -> completion B) (xs : list A)
  : completion (list B) :=
  match xs with
  | [] => Normal []
  | x :: xs' =>
      cbind (f x) (fun y =>
      cbind (map_throwing f xs') (fun ys => Normal (y :: ys)))
  end.

(** A number where this library meets one outside JSON: all it asks of
    it is its truth value ([NaN] and zero are falsy), [Number.isNaN] and
    [toString()]. *)
Record jsnumber : Type := {
  isNaN : bool;
  isZero : bool;
  toString : jsstring;
}.

(** ** Plain objects

    An object literal or a parsed JSON object: its own enumerable string
    keyed properties in creation order.  Writing an existing key keeps the
    key's place and replaces the value. *)

Definition object (V : Type) := list (jsstring * V).

Fixpoint obj_get {V} (o : object V) (k : jsstring) : option V :=
  match o with
  | [] => None
  | (k', v) :: o' => if str_eqb k' k then Some v else obj_get o' k
  end.

Fixpoint obj_set {V} (o : object V) (k : jsstring) (v : V) : object V :=
  match o with
  | [] => [(k, v)]
  | (k', v') :: o' =>
      if str_eqb k' k then (k', v) :: o' else (k', v') :: obj_set o' k v
  end.

(** [{...a, ...b}] *)
Definition spread {V} (a b : object V) : object V :=
  fold_left (fun acc kv => obj_set acc (fst kv) (snd kv)) b a.

(** A spread of a value that may be [undefined] copies nothing. *)
Definition spread_opt {V} (a : option (object V)) : object V :=
  match a with Some o => o | None => [] end.

(** ** Property enumeration order

    [Object.keys] and [Object.entries] list array-index keys first, in
    ascending numeric order, then the other keys in creation order. *)

Definition is_digit (c : N) : bool := (48 <=? c)%N && (c <=? 57)%N.

Fixpoint digits_value (acc : N) (s : jsstring) : option N :=
  match s with
  | [] => Some acc
  | c :: s' =>
      if is_digit c then digits_value (acc * 10 + (c - 48))%N s' else None
  end.

(** The canonical decimal form of an integer below 2^32 - 1. *)
Definition array_index (k : jsstring) : option N :=
  match k with
  | [] => None
  | c :: rest =>
      if N.eqb c 48 && negb (match rest with [] => true | _ => false end)
      then None
      else if (10 <? N.of_nat (List.length k))%N then None
      else match digits_value 0 k with
           | Some n => if (n <=? 4294967294)%N then Some n else None
           | None => None
           end
  end.

Fixpoint insert_by_index {V} (n : N) (kv : jsstring * V)
  (sorted : list (N * (jsstring * V))) : list (N * (jsstring * V)) :=
  match sorted with
  | [] => [(n, kv)]
  | (m, kv') :: rest =>
      if (n <? m)%N then (n, kv) :: sorted
      else (m, kv') :: insert_by_index n kv rest
  end.

Fixpoint split_keys {V} (o : object V)
  : list (N * (jsstring * V)) * object V :=
  match o with
  | [] => ([], [])
  | (k, v) :: o' =>
      let '(ix, named) := split_keys o' in
      match array_index k with
      | Some n => (insert_by_index n (k, v) ix, named)
      | None => (ix, (k, v) :: named)
      end
  end.

Definition Object_entries {V} (o : object V) : list (jsstring * V) :=
  let '(ix, named) := split_keys o in map snd ix ++ named.

Definition Object_keys {V} (o : object V) : list jsstring :=
  map fst (Object_entries o).

End JS.

(* ================================================================== *)
(** * [JSON.parse] *)
(* ================================================================== *)

Module JSON.
Import JS.

(** A parsed value.  A number leaf keeps the literal it was read from:
    nothing below computes with its value except through [Number_toString]
    and [Number_ToBoolean] of the helpers' runtime. *)
Inductive json : Type :=
| JNull
| JBool (b : bool)
| JNumber (literal : jsstring)
| JString (s : jsstring)
| JArray (items : list json)
| JObject (props : object json).

Inductive tok : Type :=
| TLBrace | TRBrace | TLBracket | TRBracket | TColon | TComma
| TString (s : jsstring)
| TNumber (literal : jsstring)
| TTrue | TFalse | TNull.

(** ** The lexer: one code unit at a time *)

(** Where the reader stands inside a number literal: an optional minus,
    an integer part without a leading zero, an optional fraction (a dot
    and at least one digit) and an optional exponent (e or E, an optional
    sign, at least one digit). *)
Inductive numstate :=
| NMinus | NZero | NInt | NDot | NFrac | NExp | NExpSign | NExpDigits.

Definition num_accepting (st : numstate) : bool :=
  match st with
  | NZero | NInt | NFrac | NExpDigits => true
  | _ => false
  end.

Definition is_e (c : N) : bool := N.eqb c 101 || N.eqb c 69.
Definition is_sign (c : N) : bool := N.eqb c 43 || N.eqb c 45.

Definition num_step (st : numstate) (c : N) : option numstate :=
  match st with
  | NMinus =>
      if N.eqb c 48 then Some NZero
      else if is_digit c then Some NInt else None
  | NZero =>
      if N.eqb c 46 then Some NDot
      else if is_e c then Some NExp else None
  | NInt =>
      if is_digit c then Some NInt
      else if N.eqb c 46 then Some NDot
      else if is_e c then Some NExp else None
  | NDot => if is_digit c then Some NFrac else None
  | NFrac =>
      if is_digit c then Some NFrac
      else if is_e c then Some NExp else None
  | NExp =>
      if is_sign c then Some NExpSign
      else if is_digit c then Some NExpDigits else None
  | NExpSign => if is_digit c then Some NExpDigits else None
  | NExpDigits => if is_digit c then Some NExpDigits else None
  end.

Inductive lexmode : Type :=
| LStart
| LInString (acc : jsstring)
| LEscape (acc : jsstring)
| LUnicode (acc : jsstring) (hex : list N)
| LInNumber (st : numstate) (acc : jsstring)
| LWord (expect : jsstring) (t : tok).

Definition is_ws (c : N) : bool :=
  N.eqb c 9 || N.eqb c 10 || N.eqb c 13 || N.eqb c 32.

Definition hex_value (c : N) : option N :=
  if is_digit c then Some (c - 48)%N
  else if (97 <=? c)%N && (c <=? 102)%N then Some (c - 87)%N
  else if (65 <=? c)%N && (c <=? 70)%N then Some (c - 55)%N
  else None.

Definition lex_start (c : N) : option (lexmode * list tok) :=
  if is_ws c then Some (LStart, [])
  else if N.eqb c 123 then Some (LStart, [TLBrace])
  else if N.eqb c 125 then Some (LStart, [TRBrace])
  else if N.eqb c 91 then Some (LStart, [TLBracket])
  else if N.eqb c 93 then Some (LStart, [TRBracket])
  else if N.eqb c 58 then Some (LStart, [TColon])
  else if N.eqb c 44 then Some (LStart, [TComma])
  else if N.eqb c 34 then Some (LInString [], [])
  else if N.eqb c 45 then Some (LInNumber NMinus [c], [])
  else if N.eqb c 48 then Some (LInNumber NZero [c], [])
  else if is_digit c then Some (LInNumber NInt [c], [])
  else if N.eqb c 116 then Some (LWord (lit "rue") TTrue, [])
  else if N.eqb c 102 then Some (LWord (lit "alse") TFalse, [])
  else if N.eqb c 110 then Some (LWord (lit "ull") TNull, [])
  else None.

Definition escape_value (c : N) : option N :=
  if N.eqb c 34 || N.eqb c 92 || N.eqb c 47 then Some c
  else if N.eqb c 98 then Some 8%N
  else if N.eqb c 102 then Some 12%N
  else if N.eqb c 110 then Some 10%N
  else if N.eqb c 114 then Some 13%N
  else if N.eqb c 116 then Some 9%N
  else None.

Definition lex_step (m : lexmode) (c : N) : option (lexmode * list tok) :=
  match m with
  | LStart => lex_start c
  | LInString acc =>
      if N.eqb c 34 then Some (LStart, [TString (rev acc)])
      else if N.eqb c 92 then Some (LEscape acc, [])
      else if (c <? 32)%N then None
      else Some (LInString (c :: acc), [])
  | LEscape acc =>
      if N.eqb c 117 then Some (LUnicode acc [], [])
      else match escape_value c with
           | Some u => Some (LInString (u :: acc), [])
           | None => None
           end
  | LUnicode acc hex =>
      match hex_value c with
      | None => None
      | Some d =>
          match hex with
          | [a; b; e] =>
              Some (LInString ((((a * 16 + b) * 16 + e) * 16 + d)%N :: acc), [])
          | _ => Some (LUnicode acc (hex ++ [d]), [])
          end
      end
  | LInNumber st acc =>
      match num_step st c with
      | Some st' => Some (LInNumber st' (c :: acc), [])
      | None =>
          if num_accepting st then
            match lex_start c with
            | Some (m', ts) => Some (m', TNumber (rev acc) :: ts)
            | None => None
            end
          else None
      end
  | LWord expect t =>
      match expect with
      | [] => None
      | e :: rest =>
          if N.eqb c e then
            match rest with
            | [] => Some (LStart, [t])
            | _ => Some (LWord rest t, [])
            end
          else None
      end
  end.

Fixpoint lex (m : lexmode) (s : jsstring) : option (list tok) :=
  match s with
  | [] =>
      match m with
      | LStart => Some []
      | LInNumber st acc =>
          if num_accepting st then Some [TNumber (rev acc)] else None
      | _ => None
      end
  | c :: s' =>
      match lex_step m c with
      | None => None
      | Some (m', ts) =>
          match lex m' s' with
          | None => None
          | Some rest => Some (ts ++ rest)
          end
      end
  end.

(** ** The parser: a pushdown automaton over the tokens *)

(** An enclosing array with the items read so far, or an enclosing
    object with its properties so far and the key whose value is being
    read. *)
Inductive frame : Type :=
| FArr (acc : list json)
| FObj (acc : object json) (key : jsstring).

Inductive pstate : Type :=
| PValue (stk : list frame)
| PArrOpen (stk : list frame)
| PObjOpen (stk : list frame)
| PObjKey (acc : object json) (stk : list frame)
| PObjColon (acc : object json) (key : jsstring) (stk : list frame)
| PDone (v : json) (stk : list frame).

Definition scalar (t : tok) : option json :=
  match t with
  | TString s => Some (JString s)
  | TNumber l => Some (JNumber l)
  | TTrue => Some (JBool true)
  | TFalse => Some (JBool false)
  | TNull => Some JNull
  | _ => None
  end.

Definition parse_value (stk : list frame) (t : tok) : option pstate :=
  match t with
  | TLBracket => Some (PArrOpen stk)
  | TLBrace => Some (PObjOpen stk)
  | _ => match scalar t with
         | Some v => Some (PDone v stk)
         | None => None
         end
  end.

Definition parse_step (p : pstate) (t : tok) : option pstate :=
  match p with
  | PValue stk => parse_value stk t
  | PArrOpen stk =>
      match t with
      | TRBracket => Some (PDone (JArray []) stk)
      | _ => parse_value (FArr [] :: stk) t
      end
  | PObjOpen stk =>
      match t with
      | TRBrace => Some (PDone (JObject []) stk)
      | TString k => Some (PObjColon [] k stk)
      | _ => None
      end
  | PObjKey acc stk =>
      match t with
      | TString k => Some (PObjColon acc k stk)
      | _ => None
      end
  | PObjColon acc k stk =>
      match t with
      | TColon => Some (PValue (FObj acc k :: stk))
      | _ => None
      end
  | PDone v stk =>
      match stk, t with
      | FArr acc :: stk', TComma => Some (PValue (FArr (acc ++ [v]) :: stk'))
      | FArr acc :: stk', TRBracket => Some (PDone (JArray (acc ++ [v])) stk')
      | FObj acc k :: stk', TComma => Some (PObjKey (obj_set acc k v) stk')
      | FObj acc k :: stk', TRBrace =>
          Some (PDone (JObject (obj_set acc k v)) stk')
      | _, _ => None
      end
  end.

Fixpoint parse_tokens (p : pstate) (ts : list tok) : option json :=
  match ts with
  | [] => match p with PDone v [] => Some v | _ => None end
  | t :: ts' =>
      match parse_step p t with
      | Some p' => parse_tokens p' ts'
      | None => None
      end
  end.

(** [JSON.parse(text)]: [None] is the thrown [SyntaxError]. *)
Definition parse (text : jsstring) : option json :=
  match lex LStart text with
  | Some ts => parse_tokens (PValue []) ts
  | None => None
  end.

End JSON.


(* ================================================================== *)
(** * The Fetch API's [Response] *)
(* ================================================================== *)

Module Web.
Import JS.

(** A [Response] of the Fetch API as the library reads it: the status
    line and the body, [null] or a stream holding a text.  The answer to
    a HEAD request and a 204, 205 or 304 have a [null] body.  [ok] is
    the API's getter. *)
Record Response : Type := {
  status : Z;
  statusText : jsstring;
  body : option jsstring;
}.

(** What reading the body yields: the text of the stream, the empty
    text for a [null] body. *)
Definition body_text (r : Response) : jsstring :=
  match body r with
  | Some b => b
  | None => []
  end.

Definition ok (r : Response) : bool :=
  (200 <=? status r)%Z && (status r <=? 299)%Z.

(** [await response.text()]: a body stream can be read once, a second
    read rejects with a [TypeError]; a [null] body reads as the empty
    text any number of times. *)
Definition text (r : Response) (bodyUsed : bool) : completion jsstring :=
  match body r with
  | None => Normal []
  | Some b => if bodyUsed then Throw TypeError else Normal b
  end.

End Web.

(* ================================================================== *)
(** * src/helpers.ts *)
(* ================================================================== *)

Module Helpers.
Import JS JSON Web.

(** What the helpers need of the engine beyond this file: the string form
    and the truth value of the number a JSON literal denotes (IEEE
    doubles), and [toUpperCase] on a one-unit string outside ASCII. *)
Class Runtime : Type := {
  Number_toString : jsstring -> jsstring;
  Number_ToBoolean : jsstring -> bool;
  toUpperCase_other : N -> jsstring;
}.

(** The error object handed to [onError]. *)
Record HulkFetchErrorProps : Type := {
  message : jsstring;
  code : Z;
  details : option (list json);
}.

Definition is_JString (v : json) : bool :=
  match v with JString _ => true | _ => false end.

Section WithRuntime.
Context {rt : Runtime}.

(** [String(v)] and the template literal's conversion.  An array joins
    its items with commas, [null] items giving the empty string; a plain
    object answers [Object.prototype.toString] unless it carries an own
    [toString] property, which a parsed value cannot make callable: then
    the conversion throws. *)
Fixpoint ToString (v : json) : completion jsstring :=
  match v with
  | JNull => Normal (lit "null")
  | JBool true => Normal (lit "true")
  | JBool false => Normal (lit "false")
  | JNumber l => Normal (Number_toString l)
  | JString s => Normal s
  | JArray items =>
      (fix join (xs : list json) (first : bool) : completion jsstring :=
         match xs with
         | [] => Normal []
         | x :: xs' =>
             cbind (match x with JNull => Normal [] | _ => ToString x end)
               (fun sx =>
             cbind (join xs' false) (fun rest =>
             Normal ((if first then [] else [44%N]) ++ sx ++ rest)))
         end) items true
  | JObject props =>
      match obj_get props (lit "toString") with
      | Some _ => Throw TypeError
      | None => Normal (lit "[object Object]")
      end
  end.

Definition ToBoolean (v : json) : bool :=
  match v with
  | JNull => false
  | JBool b => b
  | JNumber l => Number_ToBoolean l
  | JString [] => false
  | JString (_ :: _) => true
  | JArray _ | JObject _ => true
  end.

(** [typeof v === "object"] *)
Definition typeof_object (v : json) : bool :=
  match v with
  | JNull | JArray _ | JObject _ => true
  | _ => false
  end.

(** [v.message]: [None] is [undefined]; reading a property of [null]
    throws. *)
Definition get_message (v : json) : completion (option json) :=
  match v with
  | JNull => Throw TypeError
  | JObject props => Normal (obj_get props (lit "message"))
  | _ => Normal None
  end.

(** [item.message || String(item)] *)
Definition message_or_String (item : json) : completion json :=
  cbind (get_message item) (fun m =>
    match m with
    | Some v =>
        if ToBoolean v then Normal v else cmap JString (ToString item)
    | None => cmap JString (ToString item)
    end).

Definition charAt0 (text : jsstring) : jsstring :=
  match text with [] => [] | c :: _ => [c] end.

Definition slice1 (text : jsstring) : jsstring := tl text.

(** [toUpperCase] of a string of at most one code unit. *)
Definition toUpperCase_unit (s : jsstring) : jsstring :=
  flat_map (fun c =>
    if (97 <=? c)%N && (c <=? 122)%N then [(c - 32)%N]
    else if (c <? 128)%N then [c]
    else toUpperCase_other c) s.

Definition capitalizeFirstLetter (text : jsstring) : jsstring :=
  toUpperCase_unit (charAt0 text) ++ slice1 text.

(** One output line of the object branch:
    the template made of the optional prefix and of
    [item.message || String(item)]. *)
Definition line (formattedKey : option jsstring) (item : json)
  : completion json :=
  let prefix :=
    match formattedKey with
    | Some (c :: k) => (c :: k) ++ lit ": "
    | _ => []
    end in
  cbind (message_or_String item) (fun x =>
  cbind (ToString x) (fun s => Normal (JString (prefix ++ s)))).

Definition entry_lines (kv : jsstring * json) : completion (list json) :=
  let '(key, value) := kv in
  let formattedKey :=
    if str_eqb key (lit "detail") then None
    else Some (capitalizeFirstLetter key) in
  match value with
  | JArray items => map_throwing (line formattedKey) items
  | _ => cmap (fun l => [l]) (line formattedKey value)
  end.

(** The body of the [try] block once [JSON.parse] has returned. *)
Definition format_parsed (parsed : json) : completion (list json) :=
  match parsed with
  | JArray items =>
      map_throwing (fun item =>
        if typeof_object item then message_or_String item
        else cmap JString (ToString item)) items
  | JObject props =>
      cmap (@List.concat json) (map_throwing entry_lines (Object_entries props))
  | _ => cmap (fun s => [JString s]) (ToString parsed)
  end.

(** [parseErrorText]: the declared result is [string[]]; the elements
    are kept as values because the array branch returns [item.message]
    as it is. *)
Definition parseErrorText (errorText : jsstring) : list json :=
  let attempt :=
    match parse errorText with
    | None => Throw SyntaxError
    | Some parsed => format_parsed parsed
    end in
  match attempt with
  | Normal lines => lines
  | Throw _ => [JString errorText]
  end.

Definition hulkFetchErrorParser (response : Response) (bodyUsed : bool)
  : completion (option HulkFetchErrorProps) :=
  cbind (text response bodyUsed) (fun t =>
  if ok response then Normal None
  else
    let details := parseErrorText t in
    Normal (Some {|
      message := match statusText response with
                 | [] => lit "An error occurred"
                 | s => s
                 end;
      code := status response;
      details := Some details |})).

End WithRuntime.
End Helpers.

(* ================================================================== *)
(** * src/hoc.tsx: the auth state of [withHulk] *)
(* ================================================================== *)

Module Hoc.
Import JS.

Record TokenProps : Type := { access_token : jsstring }.

(** A value that may be [undefined] or [null]: the user data is of a
    caller-chosen type, and [null] is a usual "no user". *)
Inductive nullable (A : Type) : Type :=
| Undefined
| Null
| Value (a : A).
Arguments Undefined {A}.
Arguments Null {A}.
Arguments Value {A} a.

(** [a ?? b] *)
Definition nullish_or {A} (a b : nullable A) : nullable A :=
  match a with
  | Value _ => a
  | _ => b
  end.

(** [a ?? b] on a field that is either an object or [undefined]. *)
Definition undefined_or {A} (a b : option A) : option A :=
  match a with
  | Some _ => a
  | None => b
  end.

Section Auth.
Variable UserProps : Type.

Record HulkAuthStateProps : Type := {
  token : option TokenProps;
  user : nullable UserProps;
}.

(** The object literal [{}]. *)
Definition empty_state : HulkAuthStateProps :=
  {| token := None; user := Undefined |}.

(** [useState(config.defaultAuthState ?? {})] *)
Definition initial_state (defaultAuthState : option HulkAuthStateProps)
  : HulkAuthStateProps :=
  match defaultAuthState with
  | Some s => s
  | None => empty_state
  end.

(** [update(data)]: the functional state update
    [prevState => ({ token: data.token ?? prevState.token,
                     user: data.user ?? prevState.user })]. *)
Definition update (data prevState : HulkAuthStateProps)
  : HulkAuthStateProps :=
  {| token := undefined_or (token data) (token prevState);
     user := nullish_or (user data) (user prevState) |}.

(** [reset()]: back to the configured default, whatever the state was. *)
Definition reset (defaultAuthState : option HulkAuthStateProps)
  (prevState : HulkAuthStateProps) : HulkAuthStateProps :=
  initial_state defaultAuthState.

(** [!!hulkAuthState.token?.access_token] *)
Definition isAuthenticated (s : HulkAuthStateProps) : bool :=
  match token s with
  | Some t => match access_token t with [] => false | _ :: _ => true end
  | None => false
  end.

End Auth.

Arguments empty_state {UserProps}.

End Hoc.

(* ================================================================== *)
(** * src/hooks.ts: [useHulkFetch] *)
(* ================================================================== *)

Module Fetch.
Import JS JSON Web Helpers Hoc.

Inductive phase := PStart | PEnd.

Inductive queryvalue : Type :=
| QString (s : jsstring)
| QNumber (n : jsnumber)
| QBool (b : bool)
| QNull
| QUndefined.

(** An own property of an object literal: absent, or present with a
    value that may be [undefined].  The difference shows in a spread. *)
Inductive slot (A : Type) : Type :=
| Absent
| Present (v : option A).
Arguments Absent {A}.
Arguments Present {A} v.

Definition slot_value {A} (s : slot A) : option A :=
  match s with
  | Absent => None
  | Present v => v
  end.

(** [{ key: base, ...from }] seen from [key]. *)
Definition overridden_by {A} (base : slot A) (from : slot A) : slot A :=
  match from with
  | Absent => base
  | Present _ => from
  end.

(** [HulkFetchProps]: the fields of [RequestInit] the hook touches, with
    headers given as a plain record of strings, and the two additions. *)
Record HulkFetchProps : Type := {
  method : slot jsstring;
  headers : slot (object jsstring);
  reqbody : option jsstring;
  query : option (object queryvalue);
  clearThreshold : option bool;
}.

(** [dispatch()] called without argument: [init = {}]. *)
Definition empty_init : HulkFetchProps :=
  {| method := Absent; headers := Absent; reqbody := None;
     query := None; clearThreshold := None |}.

(** The [URL] object: what [new URL(input, base)] resolved to, and the
    pairs appended to its [searchParams] since. *)
Record URL : Type := {
  href : jsstring;
  appended : list (jsstring * jsstring);
}.

Record Request : Type := {
  req_url : URL;
  req_init : HulkFetchProps;
}.

(** Callbacks are seen through their completion: they return or throw. *)
Record HulkFetchOptionsProps : Type := {
  onError : option (option HulkFetchErrorProps -> completion unit);
  onSuccess : option (json -> completion unit);
  onPending : option (phase -> completion unit);
}.

(** The refresh collaborator answers its n-th call; the error parser
    receives the response and whether its body was already read. *)
Record HulkFetchGlobalOptionsProps : Type := {
  callbacks : HulkFetchOptionsProps;
  baseUrl : option jsstring;
  errorParser :
    option (Response -> bool -> completion (option HulkFetchErrorProps));
  accessTokenRetriever : option (nat -> completion (option TokenProps));
  defaultHeaders : option (object jsstring);
  unauthorizedRedirectUrl : option jsstring;
}.

(** The platform around the hook: the [URL] constructor, the n-th call
    of [fetch] (a rejection is a transport failure), the navigation
    functions of Next.js when that module loaded, and the window's
    location (absent on a server). *)
Record World : Type := {
  new_URL : jsstring -> jsstring -> completion jsstring;
  fetch : nat -> Request -> completion Response;
  nextRedirect : option (jsstring -> completion unit);
  nextUsePathname : option (completion jsstring);
  window_pathname : option jsstring;
}.

Inductive event : Type :=
| EvPending (p : phase)
| EvError (e : option HulkFetchErrorProps)
| EvSuccess (d : json)
| EvFetch (r : Request)
| EvRefresh
| EvRedirect (url : jsstring)
| EvNextRedirect (url : jsstring)
| EvLocation (url : jsstring).

Definition is_fetch (e : event) : bool :=
  match e with EvFetch _ => true | _ => false end.
Definition is_refresh (e : event) : bool :=
  match e with EvRefresh => true | _ => false end.
Definition is_redirect (e : event) : bool :=
  match e with EvRedirect _ => true | _ => false end.
Definition is_error (e : event) : bool :=
  match e with EvError _ => true | _ => false end.

Definition maxThreshold : nat := 5.

(** How an [async] call ends: its promise resolves, or rejects;
    [Unfinished] is the embedding running out of steps. *)
Inductive outcome (A : Type) : Type :=
| Resolved (a : A)
| Rejected (e : exn)
| Unfinished.
Arguments Resolved {A} a.
Arguments Rejected {A} e.
Arguments Unfinished {A}.

Section Hook.
Variable UserProps : Type.

(** What the closure of [dispatch] captured at the render that made it:
    the context value [hulk] (a snapshot: React state is replaced, never
    mutated), the hook's arguments and the pathname. *)
Record Render : Type := {
  hulk_auth_state : HulkAuthStateProps UserProps;
  fetchGlobalOptions : HulkFetchGlobalOptionsProps;
  input : jsstring;
  options : option HulkFetchOptionsProps;
  pathname : jsstring;
}.

(** What [dispatch] writes: the hook's [threshold] variable, the state
    cell of [withHulk] that [auth.update] feeds, the hook's [data] cell,
    and the calls made to the outside, most recent first. *)
Record Store : Type := {
  threshold : nat;
  auth : HulkAuthStateProps UserProps;
  data : option json;
  trace : list event;
}.

Definition M (A : Type) : Type := Store -> outcome A * Store.

Definition ret {A} (a : A) : M A := fun s => (Resolved a, s).

Definition bind {A B} (m : M A) (k : A -> M B) : M B :=
  fun s =>
    match m s with
    | (Resolved a, s') => k a s'
    | (Rejected e, s') => (Rejected e, s')
    | (Unfinished, s') => (Unfinished, s')
    end.

Definition await {A} (c : completion A) : M A :=
  fun s =>
    match c with
    | Normal a => (Resolved a, s)
    | Throw e => (Rejected e, s)
    end.

Definition emit (e : event) : M unit :=
  fun s => (Resolved tt,
            {| threshold := threshold s; auth := auth s; data := data s;
               trace := e :: trace s |}).

Definition get_threshold : M nat :=
  fun s => (Resolved (threshold s), s).

Definition set_threshold (n : nat) : M unit :=
  fun s => (Resolved tt,
            {| threshold := n; auth := auth s; data := data s;
               trace := trace s |}).

Definition auth_update (d : HulkAuthStateProps UserProps) : M unit :=
  fun s => (Resolved tt,
            {| threshold := threshold s; auth := update d (auth s);
               data := data s; trace := trace s |}).

Definition setData (d : json) : M unit :=
  fun s => (Resolved tt,
            {| threshold := threshold s; auth := auth s; data := Some d;
               trace := trace s |}).

Definition count (p : event -> bool) : M nat :=
  fun s => (Resolved (List.length (filter p (trace s))), s).


Notation "x <- m ;; k" := (bind m (fun x => k))
  (at level 61, m at next level, right associativity).
Notation "m ;;; k" := (bind m (fun _ => k))
  (at level 61, right associativity).

(** ** Navigation utilities *)

(** [redirect(url)]: Next.js first; when that throws, or is not there,
    the window's location. It never throws itself. *)
Definition redirect (w : World) (url : jsstring) : M unit :=
  let fallback :=
    match window_pathname w with
    | Some _ => emit (EvLocation url)
    | None => ret tt
    end in
  match nextRedirect w with
  | Some next =>
      emit (EvNextRedirect url) ;;;
      match next url with
      | Normal _ => ret tt
      | Throw _ => fallback
      end
  | None => fallback
  end.

(** [usePathname()] *)
Definition usePathname (w : World) : jsstring :=
  let fallback :=
    match window_pathname w with
    | Some p => p
    | None => lit "/"
    end in
  match nextUsePathname w with
  | Some (Normal p) => p
  | Some (Throw _) => fallback
  | None => fallback
  end.

(** ** The hook body *)

Section Dispatch.
Variable w : World.
Variable r : Render.

Let global := fetchGlobalOptions r.

(** [validateThreshold()] *)
Definition validateThreshold : M bool :=
  t <- get_threshold ;;
  if maxThreshold <=? t then ret false
  else set_threshold (S t) ;;; ret true.

(** [options?.field ?? hulk.fetchGlobalOptions?.field]: the hook's own
    callback when it has one, otherwise the global one. *)
Definition pick {A} (field : HulkFetchOptionsProps -> option A) : option A :=
  undefined_or
    (match options r with Some o => field o | None => None end)
    (field (callbacks global)).

(** [(options?.onPending ?? hulk.fetchGlobalOptions?.onPending)?.(p, alert)] *)
Definition notify_pending (p : phase) : M unit :=
  match pick onPending with
  | Some f => emit (EvPending p) ;;; await (f p)
  | None => ret tt
  end.

Definition notify_error (e : option HulkFetchErrorProps) : M unit :=
  match pick onError with
  | Some f => emit (EvError e) ;;; await (f e)
  | None => ret tt
  end.

Definition notify_success (d : json) : M unit :=
  match pick onSuccess with
  | Some f => emit (EvSuccess d) ;;; await (f d)
  | None => ret tt
  end.

(** [errorParser ? await errorParser(response) : fallback] *)
Definition parse_error (response : Response) (bodyUsed : bool)
  (fallback : HulkFetchErrorProps) : M (option HulkFetchErrorProps) :=
  match errorParser global with
  | Some parser => await (parser response bodyUsed)
  | None => ret (Some fallback)
  end.

(** The first statement of [dispatch]:
    [{ method: 'GET', headers: {...defaultHeaders, ...init.headers}, ...init }]. *)
Definition merge_init (init : HulkFetchProps) : HulkFetchProps :=
  let merged :=
    spread (spread_opt (defaultHeaders global))
           (spread_opt (slot_value (headers init))) in
  {| method := overridden_by (Present (Some (lit "GET"))) (method init);
     headers := overridden_by (Present (Some merged)) (headers init);
     reqbody := reqbody init;
     query := query init;
     clearThreshold := clearThreshold init |}.

(** [{ ...init.headers, authorization: value }] stored back in [init]. *)
Definition with_authorization (value : jsstring) (init : HulkFetchProps)
  : HulkFetchProps :=
  {| method := method init;
     headers :=
       Present (Some (obj_set (spread_opt (slot_value (headers init)))
                              (lit "authorization") value));
     reqbody := reqbody init;
     query := query init;
     clearThreshold := clearThreshold init |}.

Definition bearer (t : TokenProps) : jsstring :=
  lit "Bearer " ++ access_token t.

(** The credential is read from the captured context value. *)
Definition attach_token (init : HulkFetchProps) : HulkFetchProps :=
  match token (hulk_auth_state r) with
  | Some t => with_authorization (bearer t) init
  | None => init
  end.

(** The loop over [Object.keys(init.query)]. *)
Definition append_query (url : URL) (q : object queryvalue) : URL :=
  fold_left (fun u key =>
    match obj_get q key with
    | None | Some QUndefined => u
    | Some (QNumber n) =>
        if isNaN n then u
        else {| href := href u;
                appended := appended u ++ [(key, toString n)] |}
    | Some QNull =>
        {| href := href u; appended := appended u ++ [(key, lit "null")] |}
    | Some (QString s) =>
        {| href := href u; appended := appended u ++ [(key, s)] |}
    | Some (QBool b) =>
        {| href := href u;
           appended := appended u ++
             [(key, if b then lit "true" else lit "false")] |}
    end) (Object_keys q) url.

(** [await fetch(url, init)] inside its [try]: the result is the
    response, or the caught rejection. *)
Definition do_fetch (url : URL) (init : HulkFetchProps)
  : M (completion Response) :=
  n <- count is_fetch ;;
  let req := {| req_url := url; req_init := init |} in
  emit (EvFetch req) ;;;
  ret (fetch w n req).

Definition call_retriever (retriever : nat -> completion (option TokenProps))
  : M (option TokenProps) :=
  n <- count is_refresh ;;
  emit EvRefresh ;;;
  await (retriever n).

Definition mockResponse : Response :=
  {| status := 500;
     statusText := lit "Network Error";
     body := Some (lit "Network error, please try again later.") |}.

Definition unauthorized (response : Response) : bool :=
  (status response =? 401)%Z || (status response =? 403)%Z.

(** The guards of the redirect at the end of the failed-refresh branch
    and, when they pass, its destination:
    [pathname !== '' && unauthorizedRedirectUrl
     && pathname !== unauthorizedRedirectUrl]. *)
Definition redirect_due : option jsstring :=
  match pathname r, unauthorizedRedirectUrl global with
  | _ :: _, Some (c :: target) =>
      if negb (str_eqb (pathname r) (c :: target))
      then Some ((c :: target) ++ lit "?code=401&next=" ++ pathname r)
      else None
  | _, _ => None
  end.

(** The call sits in a [try] whose [catch] only logs. *)
Definition redirect_to_login : M unit :=
  match redirect_due with
  | Some url => emit (EvRedirect url) ;;; redirect w url
  | None => ret tt
  end.

(** [await response.json()] *)
Definition json_of (response : Response) : completion json :=
  match parse (body_text response) with
  | Some v => Normal v
  | None => Throw SyntaxError
  end.

(** The argument of the recursive call:
    [{ ...init, clearThreshold: false,
       headers: { ...init?.headers, authorization: "Bearer " + fresh } }]. *)
Definition retry_init (fresh : TokenProps) (init : HulkFetchProps)
  : HulkFetchProps :=
  let i := with_authorization (bearer fresh) init in
  {| method := method i; headers := headers i; reqbody := reqbody i;
     query := query i; clearThreshold := Some false |}.

(** One activation of [dispatch(init)], up to its [return]: the result
    is [None] when the activation ends the call, and [Some init'] when it
    ends with [return dispatch(init')], the retry. *)
Definition activation (init : HulkFetchProps)
  : M (option HulkFetchProps) :=
  let init := merge_init init in
  match clearThreshold init with
  | Some true => set_threshold 0
  | _ => ret tt
  end ;;;
  notify_pending PStart ;;;
  let base := match baseUrl global with Some b => b | None => [] end in
  resolved <- await (new_URL w (input r) base) ;;
  let url := {| href := resolved; appended := [] |} in
  let url :=
    match query init with
    | Some q => append_query url q
    | None => url
    end in
  let init := attach_token init in
  fetched <- do_fetch url init ;;
  match fetched with
  | Throw _ =>
      notify_pending PEnd ;;;
      e <- parse_error mockResponse false
             {| message := lit "Network error"; code := 500;
                details := None |} ;;
      notify_error e ;;;
      ret None
  | Normal response =>
      match (if unauthorized response
             then accessTokenRetriever global else None) with
      | Some retriever =>
          accessResponse <- call_retriever retriever ;;
          allowed <- match accessResponse with
                     | None => ret false
                     | Some _ => validateThreshold
                     end ;;
          match accessResponse, allowed with
          | Some fresh, true =>
              auth_update {| token := Some fresh; user := Undefined |} ;;;
              ret (Some (retry_init fresh init))
          | _, _ =>
              auth_update {| token := None; user := Undefined |} ;;;
              notify_pending PEnd ;;;
              e <- parse_error response false
                     {| message := lit "Unauthorized";
                        code := status response; details := None |} ;;
              notify_error e ;;;
              redirect_to_login ;;;
              ret None
          end
      | None =>
          if negb (ok response) then
            await (text response false) ;;;
            notify_pending PEnd ;;;
            e <- parse_error response true
                   {| message := match statusText response with
                                 | [] => lit "An error occurred"
                                 | s => s
                                 end;
                      code := status response; details := None |} ;;
            notify_error e ;;;
            ret None
          else
            result <- await (json_of response) ;;
            setData result ;;;
            notify_pending PEnd ;;;
            notify_success result ;;;
            ret None
      end
  end.

(** [dispatch(init)] as a chain of activations; each unit of [fuel]
    pays for one of them. *)
Fixpoint dispatch_steps (fuel : nat) (init : HulkFetchProps) : M unit :=
  match fuel with
  | O => fun s => (Unfinished, s)
  | S fuel' =>
      next <- activation init ;;
      match next with
      | Some init' => dispatch_steps fuel' init'
      | None => ret tt
      end
  end.

(** The first activation and at most [maxThreshold] retries. *)
Definition dispatch (init : HulkFetchProps) : M unit :=
  dispatch_steps (S maxThreshold) init.

(** The hook at the render that created the closure: a fresh
    [threshold], the auth cell as the context value shows it. *)
Definition fresh_store (d : option json) : Store :=
  {| threshold := 0; auth := hulk_auth_state r; data := d; trace := [] |}.

End Dispatch.

(** ** What a run leaves behind *)

(** The requests handed to [fetch], most recent first. *)
Definition requests (s : Store) : list Request :=
  flat_map (fun e => match e with EvFetch q => [q] | _ => [] end) (trace s).

Definition fetches (s : Store) : nat :=
  List.length (filter is_fetch (trace s)).

Definition refreshes (s : Store) : nat :=
  List.length (filter is_refresh (trace s)).

(** The arguments of the calls to [redirect], most recent first. *)
Definition redirects (s : Store) : list jsstring :=
  flat_map (fun e => match e with EvRedirect u => [u] | _ => [] end)
           (trace s).

(** The arguments of the calls to [onError], most recent first. *)
Definition error_reports (s : Store) : list (option HulkFetchErrorProps) :=
  flat_map (fun e => match e with EvError x => [x] | _ => [] end) (trace s).

(** The network calls and the error reports, in order, most recent
    first. *)
Definition calls_and_reports (s : Store) : list event :=
  filter (fun e => is_fetch e || is_error e) (trace s).

(** The [authorization] header of a request. *)
Definition authorization (q : Request) : option jsstring :=
  match slot_value (headers (req_init q)) with
  | Some h => obj_get h (lit "authorization")
  | None => None
  end.

Definition header (q : Request) (name : jsstring) : option jsstring :=
  match slot_value (headers (req_init q)) with
  | Some h => obj_get h name
  | None => None
  end.

(** The value of [threshold] once the activation has gone past its
    [clearThreshold] test. *)
Definition start_threshold (init : HulkFetchProps) (s : Store) : nat :=
  match clearThreshold init with
  | Some true => 0
  | _ => threshold s
  end.

(** [post m s Q]: [Q] holds of the way [m] ends from [s] and of the
    store it leaves. *)
Definition post {A} (m : M A) (s : Store)
  (Q : outcome A -> Store -> Prop) : Prop :=
  Q (fst (m s)) (snd (m s)).

(** The error that the branch that gives up hands to [onError]:
    [errorParser ? await errorParser(response)
                 : { message: "Unauthorized", code: response.status }],
    the parser receiving a response that nobody has read. *)
Definition unauthorized_error (r : Render) (response : Response)
  : completion (option HulkFetchErrorProps) :=
  match errorParser (fetchGlobalOptions r) with
  | Some parser => parser response false
  | None =>
      Normal (Some {| message := lit "Unauthorized";
                      code := status response; details := None |})
  end.

(** The report that ends a chain of refreshes: the call to [onError]
    when one is configured, right after the last network call [q], with
    the error made of the answer to that call. *)
Definition reported_after (w : World) (r : Render) (q : Request)
  (s s' : Store) : Prop :=
  match pick r onError with
  | Some _ =>
      exists response e,
        fetch w (fetches s) q = Normal response
        /\ unauthorized_error r response = Normal e
        /\ calls_and_reports s' = EvError e :: EvFetch q :: calls_and_reports s
  | None => calls_and_reports s' = EvFetch q :: calls_and_reports s
  end.

(** The same after a chain of network calls [qs], most recent first:
    the error is made of the answer to the last of them. *)
Definition reported_after_all (w : World) (r : Render)
  (qs : list Request) (s s' : Store) : Prop :=
  match pick r onError with
  | Some _ =>
      exists last rest response e,
        qs = last :: rest
        /\ fetch w (fetches s + List.length rest) last = Normal response
        /\ unauthorized_error r response = Normal e
        /\ calls_and_reports s'
           = EvError e :: map EvFetch qs ++ calls_and_reports s
  | None => calls_and_reports s' = map EvFetch qs ++ calls_and_reports s
  end.

(** The calls that a dispatch makes to the network and to the refresh
    collaborator, most recent first. *)
Definition outside_calls (s : Store) : list event :=
  filter (fun e => is_fetch e || is_refresh e) (trace s).

(** The last of these calls is one to the refresh collaborator: of all
    the ways through [dispatch], only the branch that gives up ends so
    (a successful refresh is followed by the network call of the
    retry). *)
Definition ended_giving_up (s : Store) : bool :=
  match outside_calls s with
  | EvRefresh :: _ => true
  | _ => false
  end.

(** The calls of [redirect] after a run from [s] that gave up. *)
Definition redirects_after_giving_up (r : Render) (s : Store)
  : list jsstring :=
  match redirect_due r with
  | Some url => url :: redirects s
  | None => redirects s
  end.

(** ** Assumptions on the collaborators *)

(** The URL can be built and no configured collaborator throws: the
    callbacks return, the refresh collaborator resolves, and the error
    parser resolves on a response that nobody has read, as the
    library's own parser does. *)
Definition well_behaved (w : World) (r : Render) : Prop :=
  (exists u,
     new_URL w (input r)
       (match baseUrl (fetchGlobalOptions r) with
        | Some b => b
        | None => []
        end) = Normal u)
  /\ (forall f p, pick r onPending = Some f -> f p = Normal tt)
  /\ (forall f e, pick r onError = Some f -> f e = Normal tt)
  /\ (forall f d, pick r onSuccess = Some f -> f d = Normal tt)
  /\ (forall parser response,
        errorParser (fetchGlobalOptions r) = Some parser ->
        exists e, parser response false = Normal e)
  /\ (forall retriever n,
        accessTokenRetriever (fetchGlobalOptions r) = Some retriever ->
        exists t, retriever n = Normal t).

(** The error parser, if any, also resolves on a response whose body
    the branch for the other HTTP errors has read before calling it. *)
Definition parser_tolerates_read_body (r : Render) : Prop :=
  forall parser response,
    errorParser (fetchGlobalOptions r) = Some parser ->
    exists e, parser response true = Normal e.

(** Every successful response carries a body that [JSON.parse] accepts. *)
Definition json_bodies (w : World) : Prop :=
  forall n q response,
    fetch w n q = Normal response ->
    ok response = true ->
    parse (body_text response) <> None.

(** Every network call is answered 401 or 403. *)
Definition always_unauthorized (w : World) : Prop :=
  forall n q,
    exists response,
      fetch w n q = Normal response /\ unauthorized response = true.

(** A refresh collaborator is configured and always resolves to a
    credential. *)
Definition refresh_always_succeeds (r : Render) : Prop :=
  exists retriever,
    accessTokenRetriever (fetchGlobalOptions r) = Some retriever /\
    forall n, exists t, retriever n = Normal (Some t).

End Hook.
End Fetch.

(* ================================================================== *)
(** * src/hooks.ts: [useHulkAlert] *)
(* ================================================================== *)

Module Alert.
Import JS.

Record HulkAlertGlobalOptionsProps : Type := {
  targetId : jsstring;
  replaceDuplicates : bool;
}.

Record HulkAlertOptionsProps : Type := {
  opt_targetId : option jsstring;
  alertId : jsstring;
}.

Section Dom.
(** React elements are opaque here. *)
Variable ReactElement : Type.

(** The values of type [ReactNode]. *)
Inductive ReactNode : Type :=
| RString (s : jsstring)
| RNumber (n : jsnumber)
| RElement (e : ReactElement)
| RBool (b : bool)
| RNull
| RUndefined
| RIterable.

(** The truth value of [node] in [target && node]. *)
Definition truthy (node : ReactNode) : bool :=
  match node with
  | RString [] => false
  | RString (_ :: _) => true
  | RNumber n => negb (isNaN n) && negb (isZero n)
  | RElement _ => true
  | RBool b => b
  | RNull | RUndefined => false
  | RIterable => true
  end.

(** What an element shows: nothing, its [textContent], or a React root
    asked to render an element (the mount is asynchronous; when it
    fails the element falls back to a placeholder text). *)
Inductive payload : Type :=
| Nothing
| Text (s : jsstring)
| Root (e : ReactElement).

(** An element of the document: its [id] (empty when it has none), its
    payload and its child elements in order. *)
Inductive element : Type :=
| Element (id : jsstring) (shown : payload) (children : list element).

Definition id_of (n : element) : jsstring :=
  match n with Element i _ _ => i end.
Definition shown_of (n : element) : payload :=
  match n with Element _ p _ => p end.
Definition children_of (n : element) : list element :=
  match n with Element _ _ cs => cs end.

(** An element is named by the child indices leading to it from the
    root of the document. *)
Definition path := list nat.

Section First.
Variable find : element -> option path.

(** The first child, from index [k] on, in which [find] succeeds. *)
Fixpoint first_among (cs : list element) (k : nat) : option path :=
  match cs with
  | [] => None
  | c :: cs' =>
      match find c with
      | Some p => Some (k :: p)
      | None => first_among cs' (S k)
      end
  end.
End First.

(** Tree-order search for a non-empty id below and including [n]. *)
Fixpoint find_id (i : jsstring) (n : element) : option path :=
  match n with
  | Element j _ cs =>
      if str_eqb j i then Some []
      else first_among (find_id i) cs 0
  end.

(** [document.getElementById(i)]: no element has the empty id. *)
Definition getElementById (doc : element) (i : jsstring) : option path :=
  match i with
  | [] => None
  | _ :: _ => find_id i doc
  end.

Fixpoint subtree (p : path) (n : element) : option element :=
  match p with
  | [] => Some n
  | k :: p' =>
      match nth_error (children_of n) k with
      | Some c => subtree p' c
      | None => None
      end
  end.

Fixpoint map_nth {A} (k : nat) (f : A -> A) (l : list A) : list A :=
  match l, k with
  | [], _ => []
  | x :: l', O => f x :: l'
  | x :: l', S k' => x :: map_nth k' f l'
  end.

(** Rewrite the element at [p]. *)
Fixpoint update_at (p : path) (f : element -> element) (n : element)
  : element :=
  match p with
  | [] => f n
  | k :: p' =>
      match n with
      | Element i s cs => Element i s (map_nth k (update_at p' f) cs)
      end
  end.

Fixpoint remove_nth {A} (k : nat) (l : list A) : list A :=
  match l, k with
  | [], _ => []
  | _ :: l', O => l'
  | x :: l', S k' => x :: remove_nth k' l'
  end.

(** [a.contains(b)]: [b] is [a] or lies below it. *)
Fixpoint contains (a b : path) : bool :=
  match a, b with
  | [], _ => true
  | x :: a', y :: b' => Nat.eqb x y && contains a' b'
  | _ :: _, [] => false
  end.

(** The index of [b] among the children of [a], when it is one. *)
Fixpoint child_index (a b : path) : option nat :=
  match a, b with
  | [], [k] => Some k
  | x :: a', y :: b' => if Nat.eqb x y then child_index a' b' else None
  | _, _ => None
  end.

(** [target.removeChild(child)]: throws when [child] is not a child of
    [target] ([NotFoundError]). *)
Definition removeChild (doc : element) (target child : path)
  : completion element :=
  match child_index target child with
  | Some k =>
      Normal (update_at target (fun t =>
        Element (id_of t) (shown_of t) (remove_nth k (children_of t))) doc)
  | None => Throw (Raised (lit "NotFoundError"))
  end.

(** [target.appendChild(child)] for a new element. *)
Definition appendChild (doc : element) (target : path) (child : element)
  : element :=
  update_at target (fun t =>
    Element (id_of t) (shown_of t) (children_of t ++ [child])) doc.

(** The [div] that [push] creates for [node]. *)
Definition alert_div (i : jsstring) (node : ReactNode) : element :=
  Element i
    match node with
    | RString s => Text s
    | RNumber n => Text (toString n)
    | RElement e => Root e
    | _ => Nothing
    end
    [].

Section Hook.
Variable alertGlobalOptions : HulkAlertGlobalOptionsProps.

(** The target element: the call's own [targetId] when truthy,
    otherwise the global one. *)
Definition resolve_target (doc : element) (o : HulkAlertOptionsProps)
  : option path :=
  match opt_targetId o with
  | Some (c :: t) => getElementById doc (c :: t)
  | _ => getElementById doc (targetId alertGlobalOptions)
  end.

(** [push(node, alertOptions)] on the document. *)
Definition push (node : ReactNode) (o : HulkAlertOptionsProps)
  (doc : element) : completion element :=
  match resolve_target doc o with
  | Some target =>
      if truthy node then
        cbind
          (if replaceDuplicates alertGlobalOptions then
             match getElementById doc (alertId o) with
             | Some existing =>
                 if contains target existing
                 then removeChild doc target existing
                 else Normal doc
             | None => Normal doc
             end
           else Normal doc)
          (fun doc' =>
             Normal (appendChild doc' target (alert_div (alertId o) node)))
      else Normal doc
  | None => Normal doc
  end.

(** [pop(alertOptions)] on the document. *)
Definition pop (o : HulkAlertOptionsProps) (doc : element)
  : completion element :=
  match resolve_target doc o, alertId o with
  | Some target, _ :: _ =>
      match getElementById doc (alertId o) with
      | Some existing =>
          if contains target existing
          then removeChild doc target existing
          else Normal doc
      | None => Normal doc
      end
  | _, _ => Normal doc
  end.

End Hook.

(** How many elements below and including [n] carry the id [i]. *)
Fixpoint count_id (i : jsstring) (n : element) : nat :=
  match n with
  | Element j _ cs =>
      (if str_eqb j i then 1 else 0) +
      list_sum (map (count_id i) cs)
  end.

End Dom.

Arguments RString {ReactElement} s.
Arguments RNumber {ReactElement} n.
Arguments RBool {ReactElement} b.
Arguments RNull {ReactElement}.
Arguments RUndefined {ReactElement}.
Arguments RIterable {ReactElement}.
Arguments Nothing {ReactElement}.
Arguments Text {ReactElement} s.

End Alert.

(* ================================================================== *)
(** * Views of the alerts in a document *)
(* ================================================================== *)

Module AlertViews.
Import JS Alert.


Section Dom.
Variable ReactElement : Type.
Implicit Types (doc : element ReactElement) (tp : path) (a : jsstring)
  (node : ReactNode ReactElement).





End Dom.
End AlertViews.

(* ================================================================== *)
(** * Concrete configurations used in the examples *)
(* ================================================================== *)

Module Examples.
Import JS JSON Web Helpers Hoc Fetch.

(** The user data of the examples is a name. *)
Definition User : Type := jsstring.

(** All three callbacks configured globally, none of them throwing. *)
Definition quiet_callbacks : HulkFetchOptionsProps :=
  {| onError := Some (fun _ => Normal tt);
     onSuccess := Some (fun _ => Normal tt);
     onPending := Some (fun _ => Normal tt) |}.

Definition respond (st : Z) (reason : string) (b : jsstring) : Response :=
  {| status := st; statusText := lit reason; body := Some b |}.

(** A browser page at [path] (no Next.js), whose n-th network call is
    answered by [answers n]; URLs are resolved by juxtaposition, which
    is what the constructor does for the bases and inputs used here. *)
Definition page (path : string) (answers : nat -> completion Response)
  : World :=
  {| new_URL := fun i b => Normal (b ++ i);
     fetch := fun n _ => answers n;
     nextRedirect := None;
     nextUsePathname := None;
     window_pathname := Some (lit path) |}.

(** Global options with a refresh collaborator answering [refresh n] to
    its n-th call, [/login] as redirect target and one default header. *)
Definition options_with (refresh : nat -> completion (option TokenProps))
  : HulkFetchGlobalOptionsProps :=
  {| callbacks := quiet_callbacks;
     baseUrl := Some (lit "https://api.test.com");
     errorParser := None;
     accessTokenRetriever := Some refresh;
     defaultHeaders := Some [(lit "X-API-Version", lit "v1")];
     unauthorizedRedirectUrl := Some (lit "/login") |}.

(** The hook [useHulkFetch("/items")] rendered in [w] with the auth
    state [a]. *)
Definition hook (w : World) (a : HulkAuthStateProps User)
  (g : HulkFetchGlobalOptionsProps) : Render User :=
  {| hulk_auth_state := a;
     fetchGlobalOptions := g;
     input := lit "/items";
     options := None;
     pathname := usePathname w |}.

Definition signed_in : HulkAuthStateProps User :=
  {| token := Some {| access_token := lit "old" |};
     user := Value (lit "ann") |}.

Definition signed_out : HulkAuthStateProps User :=
  {| token := None; user := Undefined |}.

Definition new_token : TokenProps := {| access_token := lit "new" |}.

(** Every call answered 401. *)
Definition always_401 : World :=
  page "/dashboard" (fun _ => Normal (respond 401 "Unauthorized" [])).

(** The first call answered 401, the following ones 200 with the body
    [{"ok":true}]. *)
Definition once_401 : World :=
  page "/dashboard" (fun n =>
    match n with
    | O => Normal (respond 401 "Unauthorized" [])
    | S _ => Normal (respond 200 "OK" (quoted "{'ok':true}"))
    end).

(** Every call answered 200 with a body that is not JSON. *)
Definition html_200 : World :=
  page "/dashboard" (fun _ => Normal (respond 200 "OK" (lit "<html>"))).

(** Every call answered 200 with an empty JSON object. *)
Definition empty_200 : World :=
  page "/dashboard" (fun _ => Normal (respond 200 "OK" (lit "{}"))).

(** The same 401 seen from the login page. *)
Definition always_401_at_login : World :=
  page "/login" (fun _ => Normal (respond 401 "Unauthorized" [])).

Definition refresh_succeeds : HulkFetchGlobalOptionsProps :=
  options_with (fun _ => Normal (Some new_token)).

Definition refresh_fails : HulkFetchGlobalOptionsProps :=
  options_with (fun _ => Normal None).

(** Every call answered 404. *)
Definition always_404 : World :=
  page "/dashboard" (fun _ => Normal (respond 404 "Not Found" (lit "gone"))).

(** An error parser that reads the body text, as the library's own
    [hulkFetchErrorParser] does, and reports it as the only detail. *)
Definition reading_parser (response : Response) (bodyUsed : bool)
  : completion (option HulkFetchErrorProps) :=
  cbind (text response bodyUsed) (fun t =>
    Normal (Some {| message := statusText response;
                    code := status response;
                    details := Some [JString t] |})).

Definition with_reading_parser (g : HulkFetchGlobalOptionsProps)
  : HulkFetchGlobalOptionsProps :=
  {| callbacks := callbacks g;
     baseUrl := baseUrl g;
     errorParser := Some reading_parser;
     accessTokenRetriever := accessTokenRetriever g;
     defaultHeaders := defaultHeaders g;
     unauthorizedRedirectUrl := unauthorizedRedirectUrl g |}.

(** [dispatch({ headers: { Accept: "text/plain" } })] *)
Definition init_with_accept : HulkFetchProps :=
  {| method := Absent;
     headers := Present (Some [(lit "Accept", lit "text/plain")]);
     reqbody := None; query := None; clearThreshold := None |}.

(** ** Alerts *)

Import Alert.

(** The examples render no React element. *)
Definition NoElement : Type := Empty_set.

Definition replacing : HulkAlertGlobalOptionsProps :=
  {| targetId := lit "alerts"; replaceDuplicates := true |}.

(** [{ alertId: "note" }], for the global container. *)
Definition note : HulkAlertOptionsProps :=
  {| opt_targetId := None; alertId := lit "note" |}.

(** A body holding the empty container. *)
Definition empty_page : element NoElement :=
  Element (lit "body") Nothing [Element (lit "alerts") Nothing []].




End Examples.

(* ================================================================== *)
(** * Shapes of error bodies *)
(* ================================================================== *)

Module Shapes.
Import JS JSON Helpers.

(** The errors a validation response reports for one field: a single
    message or a list of messages. *)
Inductive field_errors : Type :=
| One (m : jsstring)
| Many (ms : list jsstring).

Definition field_value (f : field_errors) : json :=
  match f with
  | One m => JString m
  | Many ms => JArray (map JString ms)
  end.

(** The parsed form of [{ field: errors, ... }]. *)
Definition validation_object (fields : list (jsstring * field_errors))
  : json :=
  JObject (map (fun kf => (fst kf, field_value (snd kf))) fields).

(** The message an item of a top-level array stands for: a string
    itself, an object its non-empty string [message]. *)
Definition item_message (item : json) : option jsstring :=
  match item with
  | JString s => Some s
  | JObject props =>
      match obj_get props (lit "message") with
      | Some (JString (c :: m)) => Some (c :: m)
      | _ => None
      end
  | _ => None
  end.

(** A value under which [parseErrorText] meets a [null] where it reads
    [message]: [null] itself or an array holding one. *)
Definition holds_null (v : json) : bool :=
  match v with
  | JNull => true
  | JArray items =>
      existsb (fun i => match i with JNull => true | _ => false end) items
  | _ => false
  end.

Section WithRuntime.
Context {rt : Runtime}.

(** What precedes a message of the field [key]. *)
Definition prefix_of (key : jsstring) : jsstring :=
  if str_eqb key (lit "detail") then []
  else match capitalizeFirstLetter key with
       | [] => []
       | k => k ++ lit ": "
       end.

Definition field_lines (kf : jsstring * field_errors) : list json :=
  match snd kf with
  | One m => [JString (prefix_of (fst kf) ++ m)]
  | Many ms => map (fun m => JString (prefix_of (fst kf) ++ m)) ms
  end.

End WithRuntime.

(** An engine for examples whose texts hold no number and no initial
    outside ASCII: none of the three operations is reached on them. *)
Definition ascii_engine : Runtime :=
  {| Number_toString := fun l => l;
     Number_ToBoolean := fun _ => true;
     toUpperCase_other := fun c => [c] |}.

End Shapes.

(* ================================================================== *)
(** * Sequences of auth updates *)
(* ================================================================== *)

Module AuthRuns.
Import JS Hoc.

Section Auth.
Variable UserProps : Type.

(** Calls [update(d1)], [update(d2)], ... in this order: React applies
    the queued functional updates one after the other, each to the
    state the previous one returned. *)
Definition updates (ds : list (HulkAuthStateProps UserProps))
  (s : HulkAuthStateProps UserProps) : HulkAuthStateProps UserProps :=
  fold_left (fun prevState d => update d prevState) ds s.

(** An update that cannot end a session: it carries no token, or one
    whose [access_token] is not empty. *)
Definition keeps_session (d : HulkAuthStateProps UserProps) : bool :=
  match token d with
  | Some _ => isAuthenticated d
  | None => true
  end.

End Auth.
End AuthRuns.

(* ================================================================== *)
(** * Views of a run of [dispatch] *)
(* ================================================================== *)

Module Views.
Import JS JSON Web Helpers Hoc Fetch.

(** What the loop over the query appends for one property: nothing for
    [undefined] and [NaN], the text [null] for [null], and otherwise
    [value.toString()]. *)
Definition query_param (kv : jsstring * queryvalue)
  : list (jsstring * jsstring) :=
  match snd kv with
  | QUndefined => []
  | QNumber n => if isNaN n then [] else [(fst kv, toString n)]
  | QNull => [(fst kv, lit "null")]
  | QString s => [(fst kv, s)]
  | QBool b => [(fst kv, if b then lit "true" else lit "false")]
  end.

Section Hook.
Variable UserProps : Type.

(** The arguments of the calls to [onSuccess], most recent first. *)
Definition success_reports (s : Store UserProps) : list json :=
  flat_map (fun e => match e with EvSuccess d => [d] | _ => [] end)
           (trace s).

(** The calls to the three callbacks and to [fetch], most recent
    first. *)
Definition protocol (s : Store UserProps) : list event :=
  filter (fun e =>
    match e with
    | EvPending _ | EvError _ | EvSuccess _ | EvFetch _ => true
    | _ => false
    end) (trace s).

(** The calls that end a dispatch: [onError] and [onSuccess]. *)
Definition is_report (e : event) : bool :=
  match e with
  | EvError _ | EvSuccess _ => true
  | _ => false
  end.

(** [onPending("start")] and then the network call [q], most recent
    first. *)
Definition attempt (q : Request) : list event :=
  [EvFetch q; EvPending PStart].

(** The URL of an activation: [new URL(input, baseUrl)] resolved to
    [resolved], then the query of the merged [init]. *)
Definition request_url (resolved : jsstring) (init : HulkFetchProps) : URL :=
  let url := {| href := resolved; appended := [] |} in
  match query init with
  | Some q => append_query url q
  | None => url
  end.

(** The request that the activation [dispatch(init)] hands to
    [fetch]. *)
Definition request_of (r : Render UserProps) (resolved : jsstring)
  (init : HulkFetchProps) : Request :=
  {| req_url := request_url resolved (merge_init r init);
     req_init := attach_token r (merge_init r init) |}.

(** [hulk.fetchGlobalOptions?.baseUrl || ''] *)
Definition base_of (r : Render UserProps) : jsstring :=
  match baseUrl (fetchGlobalOptions r) with
  | Some b => b
  | None => []
  end.

(** Two requests for the same thing: URL with its query, method and
    body; the headers may differ. *)
Definition same_target (q q' : Request) : Prop :=
  req_url q = req_url q'
  /\ method (req_init q) = method (req_init q')
  /\ reqbody (req_init q) = reqbody (req_init q')
  /\ query (req_init q) = query (req_init q').

(** The fallback error of the branch for the other HTTP errors:
    [{ message: response.statusText || "An error occurred",
       code: response.status }]. *)
Definition http_error (response : Response) : HulkFetchErrorProps :=
  {| message := match statusText response with
                | [] => lit "An error occurred"
                | s => s
                end;
     code := status response;
     details := None |}.

(** One call after the other through the same closure. *)
Definition then_dispatch (w : World) (r : Render UserProps)
  (first second : HulkFetchProps) : M UserProps unit :=
  bind (dispatch w r first) (fun _ => dispatch w r second).

(** The requests of a run from [s] to [s'] are [qs], most recent
    first. *)
Definition sent (qs : list Request) (s s' : Store UserProps) : Prop :=
  requests s' = qs ++ requests s.

(** The fallback error of a transport failure:
    [{ message: "Network error", code: 500 }]. *)
Definition network_error : HulkFetchErrorProps :=
  {| message := lit "Network error"; code := 500; details := None |}.

(** What the library's error parser makes of the stand-in response of
    a transport failure. *)
Definition parsed_network_error : HulkFetchErrorProps :=
  {| message := lit "Network Error";
     code := 500;
     details :=
       Some [JString (lit "Network error, please try again later.")] |}.

(** The error parser is absent or the library's own. *)
Inductive parser_choice (r : Render UserProps) : Prop :=
| NoParser (H : errorParser (fetchGlobalOptions r) = None)
| LibraryParser (rt : Runtime)
    (H : errorParser (fetchGlobalOptions r)
         = Some (hulkFetchErrorParser (rt := rt))).

(** The configured callbacks return. *)
Definition callbacks_return (r : Render UserProps) : Prop :=
  (forall f p, pick r onPending = Some f -> f p = Normal tt)
  /\ (forall f e, pick r onError = Some f -> f e = Normal tt)
  /\ (forall f d, pick r onSuccess = Some f -> f d = Normal tt).

(** What [onError] has received after a run from [s] in which the
    error [e] was reported, if the callback is configured. *)
Definition errors_with (r : Render UserProps)
  (e : option HulkFetchErrorProps) (s : Store UserProps)
  : list (option HulkFetchErrorProps) :=
  match pick r onError with
  | Some _ => e :: error_reports s
  | None => error_reports s
  end.

(** ** What a dispatch may change *)

Section Effects.
Variable w : World.
Variable r : Render UserProps.
Implicit Types s : Store UserProps.

(** The credential in the cell is what it was, or one the refresh
    collaborator returned. *)
Definition token_kept_or_refreshed s s' : Prop :=
  token (auth s') = token (auth s)
  \/ exists rho n t,
       accessTokenRetriever (fetchGlobalOptions r) = Some rho
       /\ rho n = Normal (Some t)
       /\ token (auth s') = Some t.

(** Nothing was stored or reported as a success, and at most one error
    was reported. *)
Definition nothing_stored s s' : Prop :=
  data s' = data s
  /\ success_reports s' = success_reports s
  /\ (error_reports s' = error_reports s
      \/ exists e, error_reports s' = e :: error_reports s).

(** The parsed body of a 2xx response was stored, and handed to
    [onSuccess] when the call went that far; no error was reported. *)
Definition body_stored s s' : Prop :=
  exists n q response v,
    fetch w n q = Normal response
    /\ ok response = true
    /\ parse (body_text response) = Some v
    /\ data s' = Some v
    /\ error_reports s' = error_reports s
    /\ (success_reports s' = success_reports s
        \/ success_reports s' = v :: success_reports s).

End Effects.

End Hook.
End Views.

(* ================================================================== *)
(** * More configurations for the examples *)
(* ================================================================== *)

Module MoreExamples.
Import JS JSON Web Helpers Hoc Fetch Shapes Examples.

(** The same options without a refresh collaborator. *)
Definition without_refresh (g : HulkFetchGlobalOptionsProps)
  : HulkFetchGlobalOptionsProps :=
  {| callbacks := callbacks g;
     baseUrl := baseUrl g;
     errorParser := errorParser g;
     accessTokenRetriever := None;
     defaultHeaders := defaultHeaders g;
     unauthorizedRedirectUrl := unauthorizedRedirectUrl g |}.

(** The same options with the library's own error parser, as its
    documentation configures it. *)
Definition with_library_parser (g : HulkFetchGlobalOptionsProps)
  : HulkFetchGlobalOptionsProps :=
  {| callbacks := callbacks g;
     baseUrl := baseUrl g;
     errorParser := Some (hulkFetchErrorParser (rt := ascii_engine));
     accessTokenRetriever := accessTokenRetriever g;
     defaultHeaders := defaultHeaders g;
     unauthorizedRedirectUrl := unauthorizedRedirectUrl g |}.

(** No network: every call of [fetch] rejects. *)
Definition offline : World :=
  page "/dashboard" (fun _ => Throw TypeError).

(** A response without a body, as a HEAD request gets. *)
Definition respond_no_body (st : Z) (reason : string) : Response :=
  {| status := st; statusText := lit reason; body := None |}.

(** Every call answered 404 without a body. *)
Definition head_404 : World :=
  page "/dashboard" (fun _ => Normal (respond_no_body 404 "Not Found")).

(** [dispatch({ method: "HEAD" })] *)
Definition head_init : HulkFetchProps :=
  {| method := Present (Some (lit "HEAD")); headers := Absent;
     reqbody := None; query := None; clearThreshold := None |}.


(** ** Alerts *)

Import Alert.

(** Alerts are kept side by side. *)
Definition stacking : HulkAlertGlobalOptionsProps :=
  {| targetId := lit "alerts"; replaceDuplicates := false |}.

(** A body whose container holds a wrapper around the element with the
    id [note]. *)
Definition page_with_wrapped_note : element NoElement :=
  Element (lit "body") Nothing
    [Element (lit "alerts") Nothing
       [Element (lit "wrapper") Nothing
          [Element (lit "note") (Text (lit "first")) []]]].


(** [{ alertId: "alerts" }]: the alert is named like the container. *)
Definition container_as_alert : HulkAlertOptionsProps :=
  {| opt_targetId := None; alertId := lit "alerts" |}.

End MoreExamples.

(* ================================================================== *)
(** * Properties of the helpers *)
(* ================================================================== *)

Module HelpersFacts.
Import JS JSON Web Helpers.

Section WithRuntime.
Context {rt : Runtime}.

(** The [catch] branch: whatever stops the [try] block, the raw text
    comes back as the only element. *)
Lemma parseErrorText_caught (errorText : jsstring) :
  (parse errorText = None \/
   exists parsed e,
     parse errorText = Some parsed /\ format_parsed parsed = Throw e) ->
  parseErrorText errorText = [JString errorText].
Proof.
  unfold parseErrorText.
  intros [Hnone | (parsed & e & Hsome & Hthrow)].
  - now rewrite Hnone.
  - now rewrite Hsome, Hthrow.
Qed.

(** When nothing is thrown the result is what the [try] block built. *)
Lemma parseErrorText_returned (errorText : jsstring) parsed lines :
  parse errorText = Some parsed ->
  format_parsed parsed = Normal lines ->
  parseErrorText errorText = lines.
Proof.
  unfold parseErrorText. intros -> ->. reflexivity.
Qed.

(** A lower-case ASCII initial is raised, the rest is kept. *)
Lemma capitalizeFirstLetter_ascii (c : N) (rest : jsstring) :
  (97 <= c <= 122)%N ->
  capitalizeFirstLetter (c :: rest) = (c - 32)%N :: rest.
Proof.
  intros [Hlo Hhi]. unfold capitalizeFirstLetter. simpl.
  apply N.leb_le in Hlo. apply N.leb_le in Hhi.
  now rewrite Hlo, Hhi.
Qed.

(** The library's error parser starts by reading the body: on a
    response whose body stream was read already it rejects. *)
Lemma hulkFetchErrorParser_body_used (response : Response) :
  body response <> None ->
  hulkFetchErrorParser response true = Throw TypeError.
Proof.
  intros Hbody. unfold hulkFetchErrorParser, text.
  destruct (body response); [reflexivity | now destruct Hbody].
Qed.

Lemma capitalizeFirstLetter_empty : capitalizeFirstLetter [] = [].
Proof. reflexivity. Qed.

(** C8. The four round-trip equations of [parseErrorText]: an array of
    strings comes back as it is; the value of a [detail] key comes
    without prefix; the items of an array under another key come one per
    line, each behind the capitalized key and a colon; and a text that
    [JSON.parse] rejects, such as [not json], comes back verbatim as the
    only element. *)
Theorem parseErrorText_round_trip :
  parseErrorText (quoted "['E1','E2']")
    = [JString (lit "E1"); JString (lit "E2")]
  /\ parseErrorText (quoted "{'detail':'D'}") = [JString (lit "D")]
  /\ parseErrorText (quoted "{'field':['F1','F2']}")
    = [JString (lit "Field: F1"); JString (lit "Field: F2")]
  /\ parseErrorText (lit "not json") = [JString (lit "not json")]
  /\ (forall errorText,
        parse errorText = None ->
        parseErrorText errorText = [JString errorText]).
Proof.
  repeat split; try reflexivity.
  intros errorText Hnone. apply parseErrorText_caught. now left.
Qed.

(** C10. [parseErrorText] always returns a list and never throws: a
    failure of [JSON.parse] and any exception raised while the parsed
    value is formatted (a [null] item of an array, whose [message] cannot
    be read) end in the [catch] branch, which returns the raw text as the
    only element.  The elements are not always strings: an item of a
    top-level array that is an object with a truthy [message] contributes
    that [message] as it is, here the boolean [true]. *)
Theorem parseErrorText_total_message_kept :
  (forall errorText,
     parseErrorText errorText = [JString errorText] \/
     exists parsed,
       parse errorText = Some parsed /\
       format_parsed parsed = Normal (parseErrorText errorText))
  /\ parseErrorText (quoted "[null]") = [JString (quoted "[null]")]
  /\ parseErrorText (quoted "['a',null]") = [JString (quoted "['a',null]")]
  /\ parseErrorText (quoted "[{'message':true}]") = [JBool true]
  /\ forallb is_JString (parseErrorText (quoted "[{'message':true}]"))
     = false.
Proof.
  split; [| repeat split; reflexivity].
  intros errorText. unfold parseErrorText.
  destruct (parse errorText) as [parsed|]; [| now left].
  destruct (format_parsed parsed) as [lines|e] eqn:Hfmt; [| now left].
  right. exists parsed. now split.
Qed.

End WithRuntime.
End HelpersFacts.

(* ================================================================== *)
(** * Properties of the auth state *)
(* ================================================================== *)

Module HocFacts.
Import JS Hoc.

Section Auth.
Variable UserProps : Type.
Implicit Types S U : HulkAuthStateProps UserProps.

(** C7. [update] merges and does not replace: the new token is the
    update's when it gives one and the previous one otherwise, the new
    user is the update's unless that is [undefined] or [null], and the
    empty update changes nothing. *)
Theorem update_merges S U :
  token (update U S) = undefined_or (token U) (token S)
  /\ user (update U S) = nullish_or (user U) (user S)
  /\ (forall t, token U = Some t -> token (update U S) = Some t)
  /\ (token U = None -> token (update U S) = token S)
  /\ (forall u, user U = Value u -> user (update U S) = Value u)
  /\ (user U = Undefined \/ user U = Null -> user (update U S) = user S)
  /\ update empty_state S = S.
Proof.
  repeat split.
  - intros t Ht. simpl. now rewrite Ht.
  - intros Ht. simpl. now rewrite Ht.
  - intros u Hu. simpl. now rewrite Hu.
  - intros [Hu | Hu]; simpl; now rewrite Hu.
  - destruct S as [t u]. reflexivity.
Qed.

(** The update that [dispatch] calls to clear the state is the empty
    update. *)
Lemma update_undefined_is_identity S :
  update {| token := None; user := Undefined |} S = S.
Proof. destruct S as [t u]. reflexivity. Qed.

End Auth.
End HocFacts.

(* ================================================================== *)
(** * Properties of the fetch dispatcher *)
(* ================================================================== *)

Module FetchFacts.
Import JS JSON Web Helpers Hoc Fetch HocFacts.

Lemma str_eqb_eq (a b : jsstring) : str_eqb a b = true <-> a = b.
Proof.
  revert b. induction a as [|x a IH]; intros [|y b]; simpl;
    try (split; [discriminate | discriminate]); try tauto.
  rewrite andb_true_iff, N.eqb_eq, IH. split.
  - intros [-> ->]. reflexivity.
  - intros H. injection H as -> ->. now split.
Qed.

Section Reasoning.
Variable UserProps : Type.
Variable w : World.
Variable r : Render UserProps.
Implicit Types s : Store UserProps.

(** ** Running the monad symbolically *)

Lemma post_bind A B (m : M UserProps A) (k : A -> M UserProps B) s Q :
  post m s (fun o s1 =>
    match o with
    | Resolved a => post (k a) s1 Q
    | Rejected e => Q (Rejected e) s1
    | Unfinished => Q Unfinished s1
    end) ->
  post (bind m k) s Q.
Proof.
  unfold post, bind. destruct (m s) as [[a|e|] s1]; simpl; auto.
Qed.

Lemma post_ret A (a : A) s Q : Q (Resolved a) s -> post (ret a) s Q.
Proof. exact (fun H => H). Qed.

Lemma post_await A (c : completion A) s Q :
  match c with
  | Normal a => Q (Resolved a) s
  | Throw e => Q (Rejected e) s
  end -> post (await c) s Q.
Proof. unfold post, await. destruct c; auto. Qed.

Lemma post_prim A (m : M UserProps A) s Q o s1 :
  m s = (o, s1) -> Q o s1 -> post m s Q.
Proof. unfold post. intros ->. auto. Qed.

Lemma post_weaken A (m : M UserProps A) s (Q Q' : _ -> _ -> Prop) :
  post m s Q -> (forall o s', Q o s' -> Q' o s') -> post m s Q'.
Proof. unfold post. auto. Qed.

End Reasoning.

(** One step of symbolic execution: the rule of the operation at the
    head, a case split where the program branches. *)
Ltac wp1 :=
  lazymatch goal with
  | |- post (bind _ _) _ _ => apply post_bind
  | |- post (ret _) _ _ => apply post_ret
  | |- post (await ?c) _ _ => apply post_await; destruct c eqn:?
  | |- post (emit _) _ _ => eapply post_prim; [reflexivity|]
  | |- post (set_threshold _) _ _ => eapply post_prim; [reflexivity|]
  | |- post (@get_threshold _) _ _ => eapply post_prim; [reflexivity|]
  | |- post (auth_update _) _ _ => eapply post_prim; [reflexivity|]
  | |- post (setData _) _ _ => eapply post_prim; [reflexivity|]
  | |- post (count _) _ _ => eapply post_prim; [reflexivity|]
  | |- post (match ?x with _ => _ end) _ _ => destruct x eqn:?
  | |- post (notify_pending _ _) _ _ => unfold notify_pending
  | |- post (notify_error _ _) _ _ => unfold notify_error
  | |- post (notify_success _ _) _ _ => unfold notify_success
  | |- post (parse_error _ _ _ _) _ _ => unfold parse_error
  | |- post (do_fetch _ _ _) _ _ => unfold do_fetch
  | |- post (call_retriever _) _ _ => unfold call_retriever
  | |- post (@validateThreshold _) _ _ => unfold validateThreshold
  | |- post (redirect_to_login _ _) _ _ => unfold redirect_to_login
  | |- post (redirect _ _) _ _ => unfold redirect
  | |- post (activation _ _ _) _ _ => unfold activation
  end;
  cbn beta iota zeta delta [threshold auth data trace].

Ltac wp := repeat wp1.

(** Facts read off the hypotheses a run leaves behind. *)
Ltac tidy :=
  repeat match goal with
  | H : (maxThreshold <=? _) = true |- _ => apply Nat.leb_le in H
  | H : (maxThreshold <=? _) = false |- _ => apply Nat.leb_gt in H
  | H : clearThreshold (merge_init _ _) = _ |- _ =>
      cbn [merge_init clearThreshold] in H
  | H : negb _ = true |- _ => apply negb_true_iff in H
  | H : negb _ = false |- _ => apply negb_false_iff in H
  end.

Section Bound.
Variable UserProps : Type.
Variable w : World.
Variable r : Render UserProps.
Implicit Types s : Store UserProps.

Lemma post_conj A (m : M UserProps A) s (Q1 Q2 : _ -> _ -> Prop) :
  post m s Q1 -> post m s Q2 -> post m s (fun o s' => Q1 o s' /\ Q2 o s').
Proof. unfold post. auto. Qed.

(** What one activation does to the counters, whatever the world: it
    ends, it makes at most one network call, and it hands over to a
    retry only after taking one unit of a threshold that was below the
    maximum; otherwise the auth cell is as before and [redirect] was
    called at most once, with the destination that the guards allow. *)
Lemma activation_spec init s :
  post (activation w r init) s (fun o s' =>
    match o with
    | Unfinished => False
    | Resolved (Some init') =>
        threshold s' = S (start_threshold init s)
        /\ start_threshold init s < maxThreshold
        /\ clearThreshold init' = Some false
        /\ fetches s' = S (fetches s)
        /\ redirects s' = redirects s
    | _ =>
        threshold s' = start_threshold init s
        /\ fetches s' <= S (fetches s)
        /\ auth s' = auth s
        /\ (redirects s' = redirects s \/
            exists url, redirect_due r = Some url /\
                        redirects s' = url :: redirects s)
    end).
Proof.
  wp; tidy.
  all: unfold start_threshold, fetches, redirects, maxThreshold in *.
  all: cbn [threshold auth data trace filter flat_map is_fetch app
            List.length].
  all: try match goal with H : clearThreshold ?i = _ |- _ => rewrite H end.
  all: rewrite ?update_undefined_is_identity.
  all: try lia.
  all: solve [repeat split;
              (reflexivity || lia || (left; reflexivity) || eauto)].
Qed.

(** The chain of activations, by induction on the steps left: with more
    steps than units of threshold left the chain ends, and it makes at
    most one network call more than there were units left. *)
Lemma dispatch_steps_spec fuel : forall init s,
  maxThreshold - start_threshold init s < fuel ->
  post (dispatch_steps w r fuel init) s (fun o s' =>
    o <> Unfinished
    /\ fetches s' <= fetches s + S (maxThreshold - start_threshold init s)
    /\ (redirects s' = redirects s \/
        exists url, redirect_due r = Some url /\
                    redirects s' = url :: redirects s)).
Proof.
  induction fuel as [|fuel IH]; intros init s Hfuel; [lia|].
  cbn [dispatch_steps]. apply post_bind.
  eapply post_weaken; [apply activation_spec|].
  intros [[init'|]|e|] s1; cbn beta iota.
  - intros (Hthr & Hlt & Hclear & Hfetch & Hred).
    assert (Hstart : start_threshold init' s1 = S (start_threshold init s)).
    { unfold start_threshold at 1. now rewrite Hclear. }
    eapply post_weaken; [apply IH; lia|].
    intros o s' (Hfin & Hbound & Hredirect). rewrite Hred in Hredirect.
    repeat split; [assumption | lia | assumption].
  - intros (_ & Hfetch & _ & Hred). apply post_ret.
    repeat split; [discriminate | lia | assumption].
  - intros (_ & Hfetch & _ & Hred).
    repeat split; [discriminate | lia | assumption].
  - intros [].
Qed.

(** [dispatch] always ends and never makes more than
    [maxThreshold + 1] network calls. *)
Lemma dispatch_bounded init s :
  fst (dispatch w r init s) <> Unfinished
  /\ fetches (snd (dispatch w r init s)) <= fetches s + S maxThreshold.
Proof.
  pose proof (@dispatch_steps_spec (S maxThreshold) init s) as H.
  unfold post in H. unfold dispatch.
  destruct H as (Hfin & Hbound & _); [lia|].
  split; [assumption | lia].
Qed.

End Bound.

(** A branch in which a collaborator threw, against the assumption that
    none does. *)
Ltac no_throw Hurl Hpend Herr Hsucc Hparse Hretr :=
  let known := (reflexivity || eassumption) in
  match goal with
  | H : new_URL _ _ _ = Throw _ |- _ =>
      destruct Hurl as [? Hurl]; rewrite Hurl in H; discriminate
  | H : Throw _ = Normal _ |- _ => discriminate
  | H : _ PStart = Throw _ |- _ =>
      erewrite Hpend in H by known; discriminate
  | H : _ PEnd = Throw _ |- _ =>
      erewrite Hpend in H by known; discriminate
  | H : ?f ?e = Throw _ |- _ =>
      first [ erewrite Herr in H by known; discriminate
            | erewrite Hsucc in H by known; discriminate
            | edestruct (Hretr f e) as [? Hp]; [known|];
              rewrite Hp in H; discriminate ]
  | H : ?f ?x false = Throw _ |- _ =>
      edestruct (Hparse f x) as [? Hp]; [known|];
      rewrite Hp in H; discriminate
  end.

Section Runs.
Variable UserProps : Type.
Variable w : World.
Variable r : Render UserProps.
Implicit Types s : Store UserProps.

Lemma text_unread (response : Response) :
  text response false = Normal (body_text response).
Proof. unfold text, body_text. now destruct (body response). Qed.

(** With collaborators that do not throw, an error parser that also
    takes a response already read, and JSON bodies on success, an
    activation resolves. *)
Lemma activation_resolves init s :
  well_behaved w r -> parser_tolerates_read_body r -> json_bodies w ->
  post (activation w r init) s (fun o _ => exists next, o = Resolved next).
Proof.
  intros (Hurl & Hpend & Herr & Hsucc & Hparse & Hretr) Hread Hjson.
  wp; tidy.
  all: try solve [eexists; reflexivity].
  all: repeat match goal with
       | H : (if ?b then _ else None) = Some _ |- _ =>
           destruct b eqn:?; [| discriminate]
       | H : text _ false = Throw _ |- _ =>
           rewrite text_unread in H; discriminate H
       | H : json_of ?resp = Throw _, F : fetch _ _ _ = Normal ?resp,
         K : ok ?resp = true |- _ =>
           unfold json_of in H;
           destruct (parse (body_text resp)) eqn:Hp; [discriminate|];
           destruct (Hjson _ _ _ F K Hp)
       | H : ?f ?x true = Throw _ |- _ =>
           edestruct (Hread f x) as [? Hp];
           [reflexivity || eassumption|];
           rewrite Hp in H; discriminate
       end.
  all: no_throw Hurl Hpend Herr Hsucc Hparse Hretr.
Qed.

(** The chain resolves under the same assumptions. *)
Lemma dispatch_steps_resolves fuel : forall init s,
  well_behaved w r -> parser_tolerates_read_body r -> json_bodies w ->
  maxThreshold - start_threshold init s < fuel ->
  post (dispatch_steps w r fuel init) s (fun o _ => o = Resolved tt).
Proof.
  induction fuel as [|fuel IH]; intros init s Hwb Hread Hjson Hfuel; [lia|].
  cbn [dispatch_steps]. apply post_bind.
  eapply post_weaken.
  { apply post_conj; [apply activation_spec|].
    apply activation_resolves; assumption. }
  intros o s1 (Hspec & next & ->). cbn beta iota.
  destruct next as [init'|]; [| reflexivity].
  destruct Hspec as (Hthr & Hlt & Hclear & _).
  apply IH; try assumption.
  unfold start_threshold at 1. rewrite Hclear. lia.
Qed.

End Runs.

Section Unauthorized.
Variable UserProps : Type.
Variable w : World.
Variable r : Render UserProps.
Implicit Types s : Store UserProps.

Hypothesis Hworld : always_unauthorized w.
Hypothesis Hrefresh : refresh_always_succeeds r.
Hypothesis Hbehaved : well_behaved w r.

(** One activation when the server answers 401 or 403 and the refresh
    succeeds: below the maximum it hands over to a retry without any
    report, at the maximum it reports and ends. *)
Lemma activation_unauthorized init s :
  post (activation w r init) s (fun o s' =>
    fetches s' = S (fetches s) /\
    exists q,
      (start_threshold init s < maxThreshold ->
         (exists init', o = Resolved (Some init')) /\
         calls_and_reports s' = EvFetch q :: calls_and_reports s)
      /\ (maxThreshold <= start_threshold init s ->
         o = Resolved None /\ reported_after w r q s s')).
Proof.
  destruct Hbehaved as (Hurl & Hpend & Herr & Hsucc & Hparse & Hretr).
  destruct Hrefresh as (rho & Hrho & Hsome).
  unfold reported_after, unauthorized_error.
  wp; tidy.
  all: repeat match goal with
       | F : fetch w ?n ?q = _ |- _ =>
           let resp := fresh "resp" in
           let E := fresh "E" in
           let U := fresh "U" in
           destruct (Hworld n q) as (resp & E & U);
           rewrite E in F; apply eq_sym in E;
           [discriminate F || (injection F as <-)]
       end.
  all: try solve [no_throw Hurl Hpend Herr Hsucc Hparse Hretr].
  all: repeat match goal with
       | U : unauthorized ?x = true, H : context [unauthorized ?x] |- _ =>
           rewrite U in H;
           match goal with
           | K : accessTokenRetriever _ = Some ?f,
             Hs : forall n : nat, exists t, ?f n = _ |- _ => rewrite K in H
           end;
           [discriminate H || (injection H as <-)]
       end.
  all: repeat match goal with
       | Hs : forall n : nat, exists t, ?f n = Normal (Some t),
         H : ?f ?n = _ |- _ =>
           let t := fresh "t" in
           let E := fresh "E" in
           destruct (Hs n) as (t & E); rewrite E in H; clear E;
           [discriminate H || (injection H as <-)]
       end.
  all: try discriminate.
  all: unfold start_threshold, calls_and_reports, maxThreshold in *.
  all: try match goal with H : clearThreshold ?i = _ |- _ => rewrite H end.
  all: try lia.
  all: split; [reflexivity|].
  all: cbn [threshold auth data trace filter is_fetch is_error orb].
  all: repeat match goal with
       | E : Normal _ = fetch w _ _ |- _ =>
           progress cbn [filter is_fetch] in E
       end.
  all: eexists; split; intros Hcmp; try lia.
  all: try solve [split; [eexists; reflexivity | reflexivity]].
  all: try solve [split; [reflexivity|]; do 2 eexists;
                  split; [symmetry; eassumption|];
                  split; [eassumption || reflexivity | reflexivity]].
  all: try solve [split; reflexivity].
Qed.

(** The chain of activations in that world, by induction on the units
    of threshold left: it resolves after one network call per unit and
    one more, with the threshold at its maximum and the report last. *)
Lemma dispatch_steps_unauthorized k : forall fuel init s,
  start_threshold init s + k = maxThreshold ->
  k < fuel ->
  post (dispatch_steps w r fuel init) s (fun o s' =>
    o = Resolved tt
    /\ threshold s' = maxThreshold
    /\ fetches s' = fetches s + S k
    /\ exists qs, List.length qs = S k /\ reported_after_all w r qs s s').
Proof.
  induction k as [|k IH]; intros fuel init s Hk Hfuel;
    (destruct fuel as [|fuel]; [lia|]);
    cbn [dispatch_steps]; apply post_bind;
    (eapply post_weaken;
      [apply post_conj; [apply activation_spec
                        | apply activation_unauthorized]|]);
    intros o s1 (Hspec & Hfetch & q & Hlt & Hge); cbn beta.
  - destruct Hge as (-> & Hrep); [lia|]. cbn iota. apply post_ret.
    destruct Hspec as (Hthr & _).
    repeat split; [lia | lia |].
    exists [q]. split; [reflexivity|].
    unfold reported_after in Hrep. unfold reported_after_all.
    destruct (pick r onError); [| exact Hrep].
    destruct Hrep as (response & e & Hanswer & Herror & Hrep).
    exists q, [], response, e. rewrite Nat.add_0_r. now repeat split.
  - destruct Hlt as ((init' & ->) & Hcalls); [lia|]. cbn iota.
    destruct Hspec as (Hthr & _ & Hclear & _).
    eapply post_weaken.
    { apply (IH fuel init' s1); [| lia].
      unfold start_threshold at 1. rewrite Hclear. lia. }
    intros o s' (-> & Hmax & Hcount & qs & Hlen & Hrep).
    repeat split; [assumption | lia |].
    exists (qs ++ [q]). split; [rewrite length_app; simpl; lia|].
    unfold reported_after_all in *.
    destruct (pick r onError).
    + destruct Hrep as (last & rest & response & e & -> & Hanswer & Herror
                        & Hrep).
      exists last, (rest ++ [q]), response, e.
      split; [reflexivity|]. split.
      { rewrite length_app. cbn [List.length].
        replace (fetches s + (List.length rest + 1))
          with (fetches s1 + List.length rest) by lia.
        exact Hanswer. }
      split; [exact Herror|].
      rewrite Hrep, Hcalls. cbn [map app]. rewrite map_app, <- app_assoc.
      reflexivity.
    + rewrite Hrep, Hcalls, map_app, <- app_assoc. reflexivity.
Qed.

End Unauthorized.

Section Terminal.
Variable UserProps : Type.
Variable w : World.
Variable r : Render UserProps.
Variable init : HulkFetchProps.
Variable s : Store UserProps.
Variable rho : nat -> completion (option TokenProps).

Hypothesis Hbehaved : well_behaved w r.
Hypothesis Hanswer :
  forall q, exists response,
    fetch w (fetches s) q = Normal response /\ unauthorized response = true.
Hypothesis Hrho : accessTokenRetriever (fetchGlobalOptions r) = Some rho.
Hypothesis Hfailed :
  rho (refreshes s) = Normal None \/
  ((exists t, rho (refreshes s) = Normal (Some t)) /\
   maxThreshold <= start_threshold init s).

(** The branch that gives up: the response is 401 or 403 and the
    refresh gives no credential, or the threshold is exhausted.  The
    call resolves after this one network call, the auth cell is as it
    was, and [redirect] is called exactly when the guards pass. *)
Lemma dispatch_gives_up :
  post (dispatch w r init) s (fun o s' =>
    o = Resolved tt
    /\ auth s' = auth s
    /\ fetches s' = S (fetches s)
    /\ redirects s'
       = match redirect_due r with
         | Some url => url :: redirects s
         | None => redirects s
         end).
Proof.
  destruct Hbehaved as (Hurl & Hpend & Herr & Hsucc & Hparse & Hretr).
  unfold dispatch. cbn [dispatch_steps].
  wp; tidy.
  all: unfold fetches, refreshes in *.
  all: cbn [filter is_fetch is_refresh] in *.
  all: try solve [no_throw Hurl Hpend Herr Hsucc Hparse Hretr].
  all: repeat match goal with
       | F : fetch w _ ?q = _ |- _ =>
           let resp := fresh "resp" in
           let E := fresh "E" in
           let U := fresh "U" in
           destruct (Hanswer q) as (resp & E & U);
           rewrite E in F; clear E; [discriminate F || (injection F as <-)]
       end.
  all: repeat match goal with
       | U : unauthorized ?x = true, H : context [unauthorized ?x] |- _ =>
           rewrite U, Hrho in H; [discriminate H || (injection H as <-)]
       end.
  all: unfold start_threshold, maxThreshold in *.
  all: try match goal with
       | H : clearThreshold init = _ |- _ => rewrite H in Hfailed
       end.
  all: destruct Hfailed as [Hf | ((t' & Hf) & Hge)];
       try match goal with
       | H : rho _ = _ |- _ => rewrite Hf in H; try discriminate H
       end.
  all: try lia.
  all: try match goal with
       | H : Normal _ = Normal _ |- _ => injection H as <-
       end.
  all: try discriminate.
  all: rewrite ?update_undefined_is_identity; unfold redirects.
  all: cbn [threshold auth data trace flat_map app].
  all: try solve [repeat split; reflexivity].
Qed.

End Terminal.

Section GivingUp.
Variable UserProps : Type.
Variable w : World.
Variable r : Render UserProps.
Implicit Types s : Store UserProps.

Hypothesis Hbehaved : well_behaved w r.

(** With collaborators that do not throw, an activation hands over to a
    retry without calling [redirect], or ends after its network call
    without calling it, or ends after the refresh that followed its
    network call, and then it has called [redirect] exactly when the
    guards pass. *)
Lemma activation_redirects init s :
  post (activation w r init) s (fun o s' =>
    match o with
    | Unfinished => False
    | Resolved (Some _) => redirects s' = redirects s
    | _ =>
        (exists q,
           outside_calls s' = EvFetch q :: outside_calls s
           /\ redirects s' = redirects s)
        \/ (exists q,
              outside_calls s' = EvRefresh :: EvFetch q :: outside_calls s
              /\ redirects s' = redirects_after_giving_up r s)
    end).
Proof.
  destruct Hbehaved as (Hurl & Hpend & Herr & Hsucc & Hparse & Hretr).
  unfold redirects_after_giving_up.
  wp; tidy.
  all: repeat match goal with
       | H : (if ?b then _ else None) = Some _ |- _ =>
           destruct b eqn:?; [| discriminate H]
       end.
  all: try solve [no_throw Hurl Hpend Herr Hsucc Hparse Hretr].
  all: unfold outside_calls, redirects.
  all: cbn [threshold auth data trace filter flat_map is_fetch is_refresh
            orb app].
  all: try reflexivity.
  all: try solve [left; eexists; split; reflexivity].
  all: try solve [right; eexists; split; reflexivity].
Qed.

(** The chain: [redirect] has been called exactly when the call ended
    in the branch that gives up and the guards pass. *)
Lemma dispatch_steps_redirects fuel : forall init s,
  maxThreshold - start_threshold init s < fuel ->
  post (dispatch_steps w r fuel init) s (fun _ s' =>
    redirects s'
    = if ended_giving_up s' then redirects_after_giving_up r s
      else redirects s).
Proof.
  induction fuel as [|fuel IH]; intros init s Hfuel; [lia|].
  cbn [dispatch_steps]. apply post_bind.
  eapply post_weaken.
  { apply post_conj; [apply activation_spec | apply activation_redirects]. }
  assert (Hend : forall s1 : Store UserProps,
    (exists q,
       outside_calls s1 = EvFetch q :: outside_calls s
       /\ redirects s1 = redirects s)
    \/ (exists q,
          outside_calls s1 = EvRefresh :: EvFetch q :: outside_calls s
          /\ redirects s1 = redirects_after_giving_up r s) ->
    redirects s1
    = if ended_giving_up s1 then redirects_after_giving_up r s
      else redirects s).
  { intros s1 [(q & Hcalls & Hred) | (q & Hcalls & Hred)];
      unfold ended_giving_up; now rewrite Hcalls. }
  intros [[init'|]|e|] s1 (Hspec & Hred); cbn beta iota.
  - destruct Hspec as (Hthr & Hlt & Hclear & _).
    eapply post_weaken.
    { apply IH. unfold start_threshold at 1. rewrite Hclear. lia. }
    intros o s' H. cbn beta in H. rewrite H.
    unfold redirects_after_giving_up.
    now rewrite Hred.
  - apply post_ret. now apply Hend.
  - now apply Hend.
  - destruct Hred.
Qed.

(** When every answer is 401 or 403 and a refresh collaborator is
    configured, each activation calls it after its network call. *)
Lemma activation_asks_for_refresh init s :
  always_unauthorized w ->
  accessTokenRetriever (fetchGlobalOptions r) <> None ->
  post (activation w r init) s (fun _ s' =>
    exists q, outside_calls s' = EvRefresh :: EvFetch q :: outside_calls s).
Proof.
  intros Hworld Hrho.
  destruct Hbehaved as (Hurl & Hpend & Herr & Hsucc & Hparse & Hretr).
  wp; tidy.
  all: try solve [repeat match goal with
                  | H : (if ?b then _ else None) = Some _ |- _ =>
                      destruct b eqn:?; [| discriminate H]
                  end;
                  no_throw Hurl Hpend Herr Hsucc Hparse Hretr].
  all: repeat match goal with
       | F : fetch w ?n ?q = _ |- _ =>
           let resp := fresh "resp" in
           let E := fresh "E" in
           let U := fresh "U" in
           destruct (Hworld n q) as (resp & E & U);
           rewrite E in F; clear E; [discriminate F || (injection F as <-)]
       end.
  all: repeat match goal with
       | U : unauthorized ?x = true, H : context [unauthorized ?x] |- _ =>
           rewrite U in H
       end.
  all: try congruence.
  all: unfold outside_calls.
  all: cbn [threshold auth data trace filter is_fetch is_refresh orb].
  all: try solve [eexists; reflexivity].
Qed.

Lemma dispatch_steps_ends_giving_up fuel : forall init s,
  always_unauthorized w ->
  accessTokenRetriever (fetchGlobalOptions r) <> None ->
  post (dispatch_steps w r fuel init) s (fun o s' =>
    o <> Unfinished -> ended_giving_up s' = true).
Proof.
  intros init s Hworld Hrho. revert init s.
  induction fuel as [|fuel IH]; intros init s.
  - intros H. now destruct H.
  - cbn [dispatch_steps]. apply post_bind.
    eapply post_weaken; [now apply activation_asks_for_refresh|].
    intros [[init'|]|e|] s1 (q & Hcalls); cbn beta iota.
    + apply IH.
    + apply post_ret. intros _. unfold ended_giving_up. now rewrite Hcalls.
    + intros _. unfold ended_giving_up. now rewrite Hcalls.
    + intros H. now destruct H.
Qed.

End GivingUp.

(** ** Objects and headers *)

Lemma str_eqb_refl (a : jsstring) : str_eqb a a = true.
Proof. now apply str_eqb_eq. Qed.

Lemma obj_get_set_same V (o : object V) k v :
  obj_get (obj_set o k v) k = Some v.
Proof.
  induction o as [|[k0 v0] o IH]; simpl.
  - now rewrite str_eqb_refl.
  - destruct (str_eqb k0 k) eqn:E; simpl; rewrite E; [reflexivity | exact IH].
Qed.

Lemma obj_get_set_other V (o : object V) k k' v :
  str_eqb k k' = false ->
  obj_get (obj_set o k v) k' = obj_get o k'.
Proof.
  intros Hne. induction o as [|[k0 v0] o IH]; simpl.
  - now rewrite Hne.
  - destruct (str_eqb k0 k) eqn:E; simpl.
    + apply str_eqb_eq in E. subst k0. now rewrite Hne.
    + now rewrite IH.
Qed.

Section Headers.
Variable UserProps : Type.
Variable r : Render UserProps.

(** An own [headers] property of the argument, even [undefined],
    survives the first statement of [dispatch] untouched: the spread
    of [init] comes after the merged headers. *)
Lemma merge_init_keeps_supplied_headers init h :
  headers init = Present h -> headers (merge_init r init) = Present h.
Proof. intros H. cbn. now rewrite H. Qed.

(** Without a [headers] property the defaults are sent. *)
Lemma merge_init_defaults init :
  headers init = Absent ->
  headers (merge_init r init)
  = Present (Some (spread_opt (defaultHeaders (fetchGlobalOptions r)))).
Proof. intros H. cbn. now rewrite H. Qed.

(** With a credential in the captured context value, the request
    carries it, whatever [init] held. *)
Lemma attach_token_present init t u :
  token (hulk_auth_state r) = Some t ->
  authorization {| req_url := u; req_init := attach_token r init |}
  = Some (bearer t).
Proof.
  intros H. unfold attach_token, authorization. rewrite H. cbn.
  apply obj_get_set_same.
Qed.

(** Without one, the retry carries the refreshed credential. *)
Lemma retry_without_captured_token init fresh u :
  token (hulk_auth_state r) = None ->
  authorization
    {| req_url := u;
       req_init := attach_token r (merge_init r (retry_init fresh init)) |}
  = Some (bearer fresh).
Proof.
  intros H. unfold attach_token, authorization. rewrite H. cbn.
  apply obj_get_set_same.
Qed.

(** The guards of the redirect, spelled out. *)
Lemma redirect_due_iff url :
  redirect_due r = Some url <->
  exists target,
    unauthorizedRedirectUrl (fetchGlobalOptions r) = Some target
    /\ target <> []
    /\ pathname r <> []
    /\ pathname r <> target
    /\ url = target ++ lit "?code=401&next=" ++ pathname r.
Proof.
  unfold redirect_due.
  destruct (pathname r) as [|p path] eqn:Hp.
  { split; [discriminate|]. intros (t & _ & _ & Hne & _). now destruct Hne. }
  destruct (unauthorizedRedirectUrl (fetchGlobalOptions r)) as [[|c t]|].
  - split; [discriminate|]. intros (t & Ht & Hne & _).
    injection Ht as <-. now destruct Hne.
  - destruct (str_eqb (p :: path) (c :: t)) eqn:E; cbn [negb].
    + apply str_eqb_eq in E. split; [discriminate|].
      intros (t' & Ht & _ & _ & Hne & _). injection Ht as <-.
      now destruct Hne.
    + split.
      * intros H. injection H as <-. exists (c :: t).
        repeat split; try discriminate.
        intros Heq. rewrite Heq, str_eqb_refl in E. discriminate.
      * intros (t' & Ht & _ & _ & _ & ->). injection Ht as <-. reflexivity.
  - split; [discriminate|]. intros (t & Ht & _). discriminate.
Qed.

End Headers.

(** ** The example configurations meet the assumptions *)

Import Examples MoreExamples.

Lemma example_well_behaved path answers a refresh :
  (forall n, exists t, refresh n = Normal t) ->
  well_behaved (page path answers)
               (hook (page path answers) a (options_with refresh)).
Proof.
  intros Hrefresh. unfold well_behaved. repeat split.
  - eexists. reflexivity.
  - intros f p H. injection H as <-. reflexivity.
  - intros f e H. injection H as <-. reflexivity.
  - intros f d H. injection H as <-. reflexivity.
  - intros parser response H. discriminate H.
  - intros retriever n H. injection H as <-. apply Hrefresh.
Qed.

(** So do they with the library's error parser. *)
Lemma library_parser_well_behaved path answers a refresh :
  (forall n, exists t, refresh n = Normal t) ->
  well_behaved (page path answers)
               (hook (page path answers) a
                     (with_library_parser (options_with refresh))).
Proof.
  intros Hrefresh. unfold well_behaved. repeat split.
  - eexists. reflexivity.
  - intros f p H. injection H as <-. reflexivity.
  - intros f e H. injection H as <-. reflexivity.
  - intros f d H. injection H as <-. reflexivity.
  - intros parser response H. injection H as <-.
    unfold hulkFetchErrorParser. rewrite text_unread. cbn [cbind].
    destruct (ok response); eexists; reflexivity.
  - intros retriever n H. injection H as <-. apply Hrefresh.
Qed.

Lemma always_401_unauthorized : always_unauthorized always_401.
Proof. intros n q. eexists. split; reflexivity. Qed.

Lemma refresh_succeeds_always a :
  refresh_always_succeeds (hook always_401 a refresh_succeeds).
Proof.
  eexists. split; [reflexivity|]. intros n. eexists. reflexivity.
Qed.

Lemma refresh_succeeds_with_library_parser a :
  refresh_always_succeeds
    (hook always_401 a (with_library_parser refresh_succeeds)).
Proof.
  eexists. split; [reflexivity|]. intros n. eexists. reflexivity.
Qed.

Lemma once_401_json_bodies : json_bodies once_401.
Proof.
  intros [|n] q response H Hok; injection H as <-.
  - discriminate Hok.
  - vm_compute. discriminate.
Qed.

(** ** Claims about [dispatch] *)



(** When the URL can be built, no configured callback or refresh
    collaborator throws, the error parser, if any, resolves whether or
    not the body has been read, and every successful response carries a
    JSON body, the promise of [dispatch] resolves. *)
Lemma dispatch_resolves (UserProps : Type) (w : World)
  (r : Render UserProps) (init : HulkFetchProps) (s : Store UserProps) :
  well_behaved w r ->
  parser_tolerates_read_body r ->
  json_bodies w ->
  fst (dispatch w r init s) = Resolved tt.
Proof.
  intros Hwb Hread Hjson.
  pose proof (@dispatch_steps_resolves UserProps w r (S maxThreshold)
                init s Hwb Hread Hjson) as H.
  unfold post in H. apply H. unfold maxThreshold. lia.
Qed.

(** When the [URL] constructor throws, the call rejects right after
    [onPending("start")]: nothing is fetched and nothing is reported. *)
Lemma dispatch_rejects_without_url (UserProps : Type) (w : World)
  (r : Render UserProps) (init : HulkFetchProps) (s : Store UserProps) e :
  new_URL w (input r)
    (match baseUrl (fetchGlobalOptions r) with
     | Some b => b
     | None => []
     end) = Throw e ->
  (forall f p, pick r onPending = Some f -> f p = Normal tt) ->
  fst (dispatch w r init s) = Rejected e
  /\ trace (snd (dispatch w r init s))
     = match pick r onPending with
       | Some _ => EvPending PStart :: trace s
       | None => trace s
       end.
Proof.
  intros Hurl Hpend.
  change (post (dispatch w r init) s (fun o s' =>
    o = Rejected e
    /\ trace s' = match pick r onPending with
                  | Some _ => EvPending PStart :: trace s
                  | None => trace s
                  end)).
  unfold dispatch. cbn [dispatch_steps].
  wp; tidy.
  all: try match goal with
       | H : _ PStart = Throw _ |- _ =>
           erewrite Hpend in H by (reflexivity || eassumption);
           discriminate H
       end.
  all: try congruence.
  all: split; [congruence | reflexivity].
Qed.

(** C4. As the code stands, the promise of [dispatch] can reject, and
    then the failure reaches no callback.  With the library's own
    [hulkFetchErrorParser] configured as error parser, the way its
    documentation shows, a 404 that carries a body makes the call reject
    with a [TypeError] after [onPending("end")], and [onError] is never
    called: the branch for the other HTTP errors has read the body
    before the parser reads it again.  The branch for 401 and 403 hands
    the same parser an unread response: there the call resolves and
    [onError] receives the parsed error.  Any other parser that reads
    the body meets the same end after a 404.  A 200 whose body is not
    JSON makes the call reject as well, with the [SyntaxError] of
    [response.json()], after [onPending("start")] and without any
    further callback.  And whenever [new URL(input, baseUrl || "")]
    throws, the call rejects after [onPending("start")], and no
    [onPending("end")] or [onError] follows. *)
Theorem dispatch_can_reject :
  (let r := hook always_404 signed_in
              (with_library_parser refresh_succeeds) in
   let run := dispatch always_404 r empty_init (fresh_store r None) in
   fst run = Rejected TypeError
   /\ error_reports (snd run) = []
   /\ filter (fun e => negb (is_fetch e)) (trace (snd run))
      = [EvPending PEnd; EvPending PStart])
  /\ (let r := hook always_401 signed_in
                 (with_library_parser refresh_fails) in
      let run := dispatch always_401 r empty_init (fresh_store r None) in
      fst run = Resolved tt
      /\ error_reports (snd run)
         = [Some {| message := lit "Unauthorized"; code := 401;
                    details := Some [JString []] |}])
  /\ (let r := hook always_404 signed_out
                 (with_reading_parser refresh_succeeds) in
      fst (dispatch always_404 r empty_init (fresh_store r None))
      = Rejected TypeError)
  /\ (let r := hook html_200 signed_out refresh_succeeds in
      let run := dispatch html_200 r empty_init (fresh_store r None) in
      well_behaved html_200 r
      /\ fst run = Rejected SyntaxError
      /\ filter (fun e => negb (is_fetch e)) (trace (snd run))
         = [EvPending PStart])
  /\ (forall (UserProps : Type) (w : World) (r : Render UserProps) init s e,
        new_URL w (input r)
          (match baseUrl (fetchGlobalOptions r) with
           | Some b => b
           | None => []
           end) = Throw e ->
        (forall f p, pick r onPending = Some f -> f p = Normal tt) ->
        fst (dispatch w r init s) = Rejected e
        /\ trace (snd (dispatch w r init s))
           = match pick r onPending with
             | Some _ => EvPending PStart :: trace s
             | None => trace s
             end).
Proof.
  split; [| split; [| split; [| split]]].
  - vm_compute. repeat split; reflexivity.
  - vm_compute. repeat split; reflexivity.
  - vm_compute. reflexivity.
  - intros r run. split.
    + apply example_well_behaved. intros n. eexists. reflexivity.
    + split; vm_compute; reflexivity.
  - exact dispatch_rejects_without_url.
Qed.

(** C2. The refresh-and-retry scenario, run from a hook whose captured
    auth state holds the credential [old]: the first call is answered
    401, the refresh resolves to [new], the retry is answered 200 with
    the body [{"ok":true}].  There are exactly two network calls, the
    retry has [clearThreshold] false and [data] becomes [{ok:true}]; but
    the retry carries [Bearer old]: the recursive call sets
    [Bearer new], and the activation overwrites it with the credential
    of the captured context value, as it does for every request.  Only
    a hook that captured no credential sends [Bearer new]. *)
Theorem retry_sends_captured_token :
  (let r := hook once_401 signed_in refresh_succeeds in
   let run := dispatch once_401 r empty_init (fresh_store r None) in
   fst run = Resolved tt
   /\ fetches (snd run) = 2
   /\ data (snd run) = Some (JObject [(lit "ok", JBool true)])
   /\ map (fun q => clearThreshold (req_init q)) (requests (snd run))
      = [Some false; None]
   /\ token (auth (snd run)) = Some new_token
   /\ map authorization (requests (snd run))
      = [Some (lit "Bearer old"); Some (lit "Bearer old")])
  /\ (let r := hook once_401 signed_out refresh_succeeds in
      let run := dispatch once_401 r empty_init (fresh_store r None) in
      fetches (snd run) = 2
      /\ map authorization (requests (snd run))
         = [Some (lit "Bearer new"); None])
  /\ (forall (UserProps : Type) (r : Render UserProps) init fresh t u,
        token (hulk_auth_state r) = Some t ->
        authorization
          {| req_url := u;
             req_init :=
               attach_token r (merge_init r (retry_init fresh init)) |}
        = Some (bearer t))
  /\ (forall (UserProps : Type) (r : Render UserProps) init fresh u,
        token (hulk_auth_state r) = None ->
        authorization
          {| req_url := u;
             req_init :=
               attach_token r (merge_init r (retry_init fresh init)) |}
        = Some (bearer fresh)).
Proof.
  split; [| split; [| split]].
  - vm_compute. repeat split; reflexivity.
  - vm_compute. repeat split; reflexivity.
  - intros UserProps r init fresh t u H. now apply attach_token_present.
  - intros UserProps r init fresh u H.
    now apply retry_without_captured_token.
Qed.

(** C3. The headers of a request when the caller supplies some: the
    object literal that merges the default headers with the caller's is
    overwritten by the spread of [init] that follows it, so a supplied
    [headers] property reaches [fetch] alone, without the defaults; the
    defaults are sent only when the caller gives no headers.  The
    [authorization] header of the captured credential is set last and
    replaces any value under that key. *)
Theorem supplied_headers_drop_defaults :
  (let r := hook empty_200 signed_out refresh_succeeds in
   let run := dispatch empty_200 r init_with_accept (fresh_store r None) in
   map (fun q => (header q (lit "Accept"), header q (lit "X-API-Version")))
       (requests (snd run))
   = [(Some (lit "text/plain"), None)])
  /\ (let r := hook empty_200 signed_out refresh_succeeds in
      let run := dispatch empty_200 r empty_init (fresh_store r None) in
      map (fun q => header q (lit "X-API-Version")) (requests (snd run))
      = [Some (lit "v1")])
  /\ (forall (UserProps : Type) (r : Render UserProps) init h,
        headers init = Present h ->
        headers (merge_init r init) = Present h)
  /\ (forall (UserProps : Type) (r : Render UserProps) init,
        headers init = Absent ->
        headers (merge_init r init)
        = Present (Some (spread_opt (defaultHeaders (fetchGlobalOptions r)))))
  /\ (forall (UserProps : Type) (r : Render UserProps) init t u,
        token (hulk_auth_state r) = Some t ->
        authorization
          {| req_url := u; req_init := attach_token r (merge_init r init) |}
        = Some (bearer t)).
Proof.
  split; [| split; [| split; [| split]]].
  - vm_compute. reflexivity.
  - vm_compute. reflexivity.
  - intros UserProps r init h H.
    now apply merge_init_keeps_supplied_headers.
  - intros UserProps r init H. now apply merge_init_defaults.
  - intros UserProps r init t u H. now apply attach_token_present.
Qed.

(** C5. The branch that gives up calls
    [auth.update({ token: undefined, user: undefined })], and [update]
    keeps the previous value of every field given as [undefined]: the
    auth state is not cleared.  An activation that does not hand over
    to a retry leaves the auth cell as it found it; a signed-in hook
    whose refresh fails is still signed in afterwards, and after an
    exhausted chain the cell holds the last refreshed credential and
    the user. *)
Theorem give_up_keeps_auth_state :
  (forall (UserProps : Type) (w : World) (r : Render UserProps) init s,
     match fst (activation w r init s) with
     | Resolved (Some _) => True
     | _ => auth (snd (activation w r init s)) = auth s
     end)
  /\ (let r := hook always_401 signed_in refresh_fails in
      let run := dispatch always_401 r empty_init (fresh_store r None) in
      fst run = Resolved tt
      /\ fetches (snd run) = 1
      /\ auth (snd run) = signed_in
      /\ isAuthenticated (auth (snd run)) = true)
  /\ (let r := hook always_401 signed_in refresh_succeeds in
      let run := dispatch always_401 r empty_init (fresh_store r None) in
      fst run = Resolved tt
      /\ fetches (snd run) = 6
      /\ auth (snd run)
         = {| token := Some new_token; user := Value (lit "ann") |}).
Proof.
  split; [| split].
  - intros UserProps w r init s.
    pose proof (activation_spec w r init s) as H. unfold post in H.
    destruct (fst (activation w r init s)) as [[init'|]|e|]; try exact I.
    + now destruct H as (_ & _ & Hauth & _).
    + now destruct H as (_ & _ & Hauth & _).
    + destruct H.
  - vm_compute. repeat split; reflexivity.
  - vm_compute. repeat split; reflexivity.
Qed.

(** C6. The redirect of the branch that gives up.  One call to
    [dispatch] calls [redirect] at most once, and only with
    [target?code=401&next=pathname] for a configured, non-empty target
    that differs from the (non-empty) current path.  When the URL can be
    built, the callbacks return, the refresh collaborator resolves and
    the error parser, if any, resolves on an unread response (the
    library's own parser does), [redirect] is called exactly once with
    that string when the call ends in the branch that gives up and the
    guards pass, and not at all otherwise: when the call ends in
    another branch, when the current path is the target, or when no
    target is configured.  The call ends in that branch when its first
    answer is 401 or 403 and the refresh fails or the threshold is
    exhausted, and also, whatever the refresh collaborator resolves to
    and however many retries are made, when every answer is 401 or 403.
    From [/dashboard] with target [/login] the argument is
    [/login?code=401&next=/dashboard], after a failed refresh and after
    six calls with successful refreshes alike; from [/login] there is
    no redirect. *)
Theorem redirect_once_with_next :
  (forall (UserProps : Type) (w : World) (r : Render UserProps) init s,
     redirects (snd (dispatch w r init s)) = redirects s \/
     exists target,
       unauthorizedRedirectUrl (fetchGlobalOptions r) = Some target
       /\ target <> []
       /\ pathname r <> []
       /\ pathname r <> target
       /\ redirects (snd (dispatch w r init s))
          = (target ++ lit "?code=401&next=" ++ pathname r) :: redirects s)
  /\ (forall (UserProps : Type) (w : World) (r : Render UserProps) init s
        rho,
        well_behaved w r ->
        (forall q, exists response,
           fetch w (fetches s) q = Normal response /\
           unauthorized response = true) ->
        accessTokenRetriever (fetchGlobalOptions r) = Some rho ->
        (rho (refreshes s) = Normal None \/
         ((exists t, rho (refreshes s) = Normal (Some t)) /\
          maxThreshold <= start_threshold init s)) ->
        (forall target,
           unauthorizedRedirectUrl (fetchGlobalOptions r) = Some target ->
           target <> [] -> pathname r <> [] -> pathname r <> target ->
           redirects (snd (dispatch w r init s))
           = (target ++ lit "?code=401&next=" ++ pathname r) :: redirects s)
        /\ (unauthorizedRedirectUrl (fetchGlobalOptions r) = None \/
            unauthorizedRedirectUrl (fetchGlobalOptions r)
            = Some (pathname r) ->
            redirects (snd (dispatch w r init s)) = redirects s))
  /\ (forall (UserProps : Type) (w : World) (r : Render UserProps) init s,
        well_behaved w r ->
        redirects (snd (dispatch w r init s))
        = if ended_giving_up (snd (dispatch w r init s))
          then redirects_after_giving_up r s
          else redirects s)
  /\ (forall (UserProps : Type) (r : Render UserProps) s,
        (forall target,
           unauthorizedRedirectUrl (fetchGlobalOptions r) = Some target ->
           target <> [] -> pathname r <> [] -> pathname r <> target ->
           redirects_after_giving_up r s
           = (target ++ lit "?code=401&next=" ++ pathname r) :: redirects s)
        /\ (unauthorizedRedirectUrl (fetchGlobalOptions r) = None \/
            unauthorizedRedirectUrl (fetchGlobalOptions r)
            = Some (pathname r) ->
            redirects_after_giving_up r s = redirects s))
  /\ (forall (UserProps : Type) (w : World) (r : Render UserProps) init s,
        well_behaved w r ->
        always_unauthorized w ->
        accessTokenRetriever (fetchGlobalOptions r) <> None ->
        ended_giving_up (snd (dispatch w r init s)) = true
        /\ redirects (snd (dispatch w r init s))
           = redirects_after_giving_up r s)
  /\ (let r := hook always_401 signed_in refresh_fails in
      redirects (snd (dispatch always_401 r empty_init (fresh_store r None)))
      = [lit "/login?code=401&next=/dashboard"])
  /\ (let r := hook always_401 signed_in
                 (with_library_parser refresh_succeeds) in
      let run := dispatch always_401 r empty_init (fresh_store r None) in
      well_behaved always_401 r
      /\ fetches (snd run) = 6
      /\ redirects (snd run) = [lit "/login?code=401&next=/dashboard"])
  /\ (let r := hook always_401_at_login signed_in refresh_fails in
      redirects
        (snd (dispatch always_401_at_login r empty_init (fresh_store r None)))
      = []).
Proof.
  assert (Hguard : forall (UserProps : Type) (r : Render UserProps) s,
    (forall target,
       unauthorizedRedirectUrl (fetchGlobalOptions r) = Some target ->
       target <> [] -> pathname r <> [] -> pathname r <> target ->
       redirects_after_giving_up r s
       = (target ++ lit "?code=401&next=" ++ pathname r) :: redirects s)
    /\ (unauthorizedRedirectUrl (fetchGlobalOptions r) = None \/
        unauthorizedRedirectUrl (fetchGlobalOptions r) = Some (pathname r) ->
        redirects_after_giving_up r s = redirects s)).
  { intros UserProps r s. unfold redirects_after_giving_up. split.
    - intros target Ht Hne Hp Hdiff.
      assert (Hdue : redirect_due r
                     = Some (target ++ lit "?code=401&next=" ++ pathname r)).
      { apply redirect_due_iff. exists target. repeat split; assumption. }
      now rewrite Hdue.
    - intros Hnone.
      destruct (redirect_due r) as [url|] eqn:Hdue; [| reflexivity].
      apply redirect_due_iff in Hdue.
      destruct Hdue as (target & Ht & _ & _ & Hdiff & _).
      destruct Hnone as [Hnone | Hsame]; rewrite Ht in *.
      + discriminate.
      + injection Hsame as ->. now destruct Hdiff. }
  assert (Hgeneral : forall (UserProps : Type) (w : World)
                            (r : Render UserProps) init s,
    well_behaved w r ->
    redirects (snd (dispatch w r init s))
    = if ended_giving_up (snd (dispatch w r init s))
      then redirects_after_giving_up r s
      else redirects s).
  { intros UserProps w r init s Hwb.
    apply (@dispatch_steps_redirects UserProps w r Hwb (S maxThreshold)
             init s).
    unfold maxThreshold. lia. }
  split; [| split; [| split; [| split; [| split; [| split; [| split]]]]]].
  - intros UserProps w r init s.
    pose proof (@dispatch_steps_spec UserProps w r (S maxThreshold) init s)
      as H.
    unfold post in H. destruct H as (_ & _ & [Hsame | (url & Hdue & Hred)]).
    + unfold maxThreshold. lia.
    + left. exact Hsame.
    + right. apply redirect_due_iff in Hdue.
      destruct Hdue as (target & Ht & Hne & Hp & Hdiff & ->).
      exists target. repeat split; assumption.
  - intros UserProps w r init s rho Hwb Hanswer Hrho Hfailed.
    pose proof (@dispatch_gives_up UserProps w r init s rho Hwb Hanswer
                  Hrho Hfailed) as H.
    unfold post in H. destruct H as (_ & _ & _ & Hred). split.
    + intros target Ht Hne Hp Hdiff.
      assert (Hdue : redirect_due r
                     = Some (target ++ lit "?code=401&next=" ++ pathname r)).
      { apply redirect_due_iff. exists target. repeat split; assumption. }
      now rewrite Hdue in Hred.
    + intros Hnone.
      destruct (redirect_due r) as [url|] eqn:Hdue; [| exact Hred].
      apply redirect_due_iff in Hdue.
      destruct Hdue as (target & Ht & _ & _ & Hdiff & _).
      destruct Hnone as [Hnone | Hsame]; rewrite Ht in *.
      * discriminate.
      * injection Hsame as ->. now destruct Hdiff.
  - exact Hgeneral.
  - exact Hguard.
  - intros UserProps w r init s Hwb Hworld Hrho.
    assert (Hended : ended_giving_up (snd (dispatch w r init s)) = true).
    { apply (@dispatch_steps_ends_giving_up UserProps w r Hwb
               (S maxThreshold) init s Hworld Hrho).
      apply dispatch_bounded. }
    split; [exact Hended|].
    rewrite (Hgeneral UserProps w r init s Hwb). now rewrite Hended.
  - vm_compute. reflexivity.
  - intros r run. split.
    + apply library_parser_well_behaved. intros n. eexists. reflexivity.
    + split; vm_compute; reflexivity.
  - vm_compute. reflexivity.
Qed.

End FetchFacts.

(* ================================================================== *)
(** * Properties of the alert channel *)
(* ================================================================== *)

Module AlertFacts.
Import JS Alert AlertViews.
Import FetchFacts.

(** ** Lists *)

Lemma list_sum_zero (l : list nat) :
  list_sum l = 0 <-> Forall (fun x => x = 0) l.
Proof.
  induction l as [|x l IH]; simpl.
  - split; [constructor | reflexivity].
  - split.
    + intros H. constructor; [lia | apply IH; lia].
    + intros H. inversion H as [|? ? Hx Hl]; subst.
      apply IH in Hl. lia.
Qed.

Lemma map_nth_app A (g : A -> A) (pre post : list A) (c : A) :
  map_nth (List.length pre) g (pre ++ c :: post) = pre ++ g c :: post.
Proof. induction pre as [|x pre IH]; simpl; [reflexivity | now rewrite IH]. Qed.

Lemma nth_error_map_nth A (g : A -> A) (l : list A) (k : nat) :
  nth_error (map_nth k g l) k = option_map g (nth_error l k).
Proof.
  revert k. induction l as [|x l IH]; intros [|k]; simpl; auto.
Qed.

Lemma remove_nth_last A (l : list A) (x : A) :
  remove_nth (List.length l) (l ++ [x]) = l.
Proof. induction l as [|y l IH]; simpl; [reflexivity | now rewrite IH]. Qed.

(** ** Paths *)

Lemma contains_app (p q : path) : contains p (p ++ q) = true.
Proof.
  induction p as [|k p IH]; simpl; [reflexivity|].
  now rewrite Nat.eqb_refl, IH.
Qed.

Lemma child_index_app (p : path) (k : nat) :
  child_index p (p ++ [k]) = Some k.
Proof.
  induction p as [|j p IH]; simpl; [reflexivity|].
  now rewrite Nat.eqb_refl.
Qed.



Section Search.
Variable ReactElement : Type.
Implicit Types (n c t : element ReactElement)
  (cs pre post : list (element ReactElement)) (p q : path)
  (f : element ReactElement -> option path).

(** ** Searching among children *)

Lemma first_among_none f cs k :
  Forall (fun c => f c = None) cs -> first_among f cs k = None.
Proof.
  intros H. revert k. induction H as [|c cs Hc _ IH]; intros k; simpl.
  - reflexivity.
  - now rewrite Hc.
Qed.

Lemma first_among_found f pre c post k p :
  Forall (fun c => f c = None) pre ->
  f c = Some p ->
  first_among f (pre ++ c :: post) k = Some ((k + List.length pre) :: p).
Proof.
  intros Hpre Hc. revert k.
  induction Hpre as [|x pre Hx _ IH]; intros k; simpl.
  - rewrite Hc. now rewrite Nat.add_0_r.
  - rewrite Hx, IH. now rewrite Nat.add_succ_r.
Qed.

Lemma first_among_inv f cs k q :
  first_among f cs k = Some q ->
  exists pre c post p,
    cs = pre ++ c :: post
    /\ Forall (fun c => f c = None) pre
    /\ f c = Some p
    /\ q = (k + List.length pre) :: p.
Proof.
  revert k. induction cs as [|x cs IH]; intros k; simpl; [discriminate|].
  destruct (f x) as [p|] eqn:Hx.
  - intros H. injection H as <-. exists [], x, cs, p.
    repeat split; [constructor | assumption | simpl; now rewrite Nat.add_0_r].
  - intros H. apply IH in H.
    destruct H as (pre & c & post & p & -> & Hpre & Hc & ->).
    exists (x :: pre), c, post, p.
    repeat split; [constructor; assumption | assumption |].
    simpl. now rewrite Nat.add_succ_r.
Qed.




End Search.

Section Tree.
Variable ReactElement : Type.
Implicit Types (n c t doc : element ReactElement)
  (cs pre post : list (element ReactElement)) (p q tp : path)
  (i a : jsstring) (g : element ReactElement -> element ReactElement).

(** ** Counting and finding *)

Lemma count_zero_inv a i s cs :
  count_id a (Element i s cs) = 0 ->
  str_eqb i a = false /\ Forall (fun c => count_id a c = 0) cs.
Proof.
  simpl. intros H. split.
  - destruct (str_eqb i a); [discriminate | reflexivity].
  - assert (Hsum : list_sum (map (count_id a) cs) = 0) by lia.
    apply list_sum_zero in Hsum. rewrite Forall_map in Hsum. exact Hsum.
Qed.

(** Induction on elements with the hypothesis on all children. *)
Lemma element_children_ind (P : element ReactElement -> Prop) :
  (forall i s cs, Forall P cs -> P (Element i s cs)) ->
  forall n, P n.
Proof.
  intros step. fix IH 1. intros [i s cs]. apply step.
  induction cs as [|c cs IHcs]; constructor; [apply IH | exact IHcs].
Qed.

(** No element with the id: the search finds none. *)
Lemma find_id_none a n : count_id a n = 0 -> find_id a n = None.
Proof.
  induction n as [i s cs IH] using element_children_ind.
  intros H. apply count_zero_inv in H. destruct H as [Hi Hcs].
  simpl. rewrite Hi. apply first_among_none.
  rewrite Forall_forall in *. intros c Hc. apply IH; [assumption|].
  now apply Hcs.
Qed.

Lemma find_id_root a n :
  find_id a n = Some [] -> str_eqb (id_of n) a = true.
Proof.
  destruct n as [i s cs]. simpl.
  destruct (str_eqb i a); [reflexivity|].
  intros H. apply first_among_inv in H.
  destruct H as (? & ? & ? & ? & _ & _ & _ & H). discriminate H.
Qed.

(** What is found exists. *)
Lemma find_id_subtree a : forall tp doc,
  find_id a doc = Some tp -> exists t, subtree tp doc = Some t.
Proof.
  induction tp as [|k tp IH]; intros [i s cs] H.
  - eexists. reflexivity.
  - simpl in H. destruct (str_eqb i a); [discriminate|].
    apply first_among_inv in H.
    destruct H as (pre & c & post & p & -> & _ & Hc & H).
    injection H as -> ->. simpl.
    rewrite nth_error_app2, Nat.sub_diag by lia. simpl. now apply IH.
Qed.

(** Rewriting the found element without touching its id leaves it the
    first with that id. *)
Lemma find_id_stable a g :
  (forall n, id_of (g n) = id_of n) ->
  forall tp doc,
    find_id a doc = Some tp ->
    find_id a (update_at tp g doc) = Some tp.
Proof.
  intros Hid. induction tp as [|k tp IH]; intros doc H.
  - apply find_id_root in H. simpl. specialize (Hid doc).
    destruct (g doc) as [i s cs]. simpl in *. rewrite Hid. now rewrite H.
  - destruct doc as [i s cs]. simpl in H |- *.
    destruct (str_eqb i a); [discriminate|].
    apply first_among_inv in H.
    destruct H as (pre & c & post & p & -> & Hpre & Hc & H).
    injection H as -> ->. rewrite map_nth_app.
    apply (first_among_found _ _ _ 0 Hpre). now apply IH.
Qed.

(** A new child with a fresh id, appended under [tp], is the first
    element with that id. *)
Lemma find_id_appended a shown : forall tp doc t,
  subtree tp doc = Some t ->
  count_id a doc = 0 ->
  find_id a (appendChild doc tp (Element a shown []))
  = Some (tp ++ [List.length (children_of t)]).
Proof.
  unfold appendChild.
  induction tp as [|k tp IH]; intros [i s cs] t Ht Hcount;
    apply count_zero_inv in Hcount; destruct Hcount as [Hi Hcs].
  - injection Ht as <-. simpl. rewrite Hi.
    change (first_among (find_id a) (cs ++ Element a shown [] :: []) 0
            = Some ((0 + List.length cs) :: [])).
    apply first_among_found.
    + rewrite Forall_forall in *. intros c Hc.
      apply find_id_none. now apply Hcs.
    + simpl. now rewrite str_eqb_refl.
  - simpl in Ht. destruct (nth_error cs k) as [c|] eqn:Hk; [|discriminate].
    apply nth_error_split in Hk. destruct Hk as (pre & post & -> & <-).
    simpl. rewrite Hi, map_nth_app.
    apply Forall_app in Hcs. destruct Hcs as [Hpre Hrest].
    inversion Hrest as [|? ? Hc _]; subst.
    change (Some ((List.length pre :: tp) ++ [List.length (children_of t)]))
      with (Some ((0 + List.length pre)
                  :: (tp ++ [List.length (children_of t)]))).
    apply first_among_found.
    + rewrite Forall_forall in *. intros x Hx.
      apply find_id_none. now apply Hpre.
    + now apply IH.
Qed.

Lemma subtree_update g : forall tp doc t,
  subtree tp doc = Some t ->
  subtree tp (update_at tp g doc) = Some (g t).
Proof.
  induction tp as [|k tp IH]; intros [i s cs] t H.
  - injection H as <-. reflexivity.
  - simpl in H |- *. rewrite nth_error_map_nth.
    destruct (nth_error cs k) as [c|]; [|discriminate].
    simpl. now apply IH.
Qed.

Lemma count_subtree a : forall tp doc t,
  subtree tp doc = Some t -> count_id a doc = 0 -> count_id a t = 0.
Proof.
  induction tp as [|k tp IH]; intros [i s cs] t H Hcount.
  - now injection H as <-.
  - simpl in H. destruct (nth_error cs k) as [c|] eqn:Hk; [|discriminate].
    apply count_zero_inv in Hcount. destruct Hcount as [_ Hcs].
    rewrite Forall_forall in Hcs.
    apply (IH c t H). apply Hcs. eapply nth_error_In. exact Hk.
Qed.

(** What is found carries the id. *)
Lemma find_id_points (a : jsstring) : forall tp doc,
  find_id a doc = Some tp ->
  exists n, subtree tp doc = Some n /\ str_eqb (id_of n) a = true.
Proof.
  induction tp as [|k tp IH]; intros [i s cs] H.
  - exists (Element i s cs). split; [reflexivity|].
    now apply find_id_root.
  - simpl in H. destruct (str_eqb i a); [discriminate|].
    apply first_among_inv in H.
    destruct H as (pre & c & post & p & -> & _ & Hc & H).
    injection H as -> ->. simpl.
    rewrite nth_error_app2, Nat.sub_diag by lia. simpl. now apply IH.
Qed.

Lemma subtree_app : forall tp q doc t,
  subtree tp doc = Some t -> subtree (tp ++ q) doc = subtree q t.
Proof.
  induction tp as [|k tp IH]; intros q doc t H; simpl in *.
  - now injection H as ->.
  - destruct (nth_error (children_of doc) k); [| discriminate].
    now apply IH.
Qed.

Lemma list_sum_map_nth (c : element ReactElement -> nat)
  (f : element ReactElement -> element ReactElement) :
  forall cs k x,
    nth_error cs k = Some x ->
    list_sum (map c (map_nth k f cs)) + c x
    = list_sum (map c cs) + c (f x).
Proof.
  induction cs as [|y cs IH]; intros [|k] x H; simpl in *; try discriminate.
  - injection H as ->. lia.
  - specialize (IH k x H). lia.
Qed.

Lemma list_sum_remove_nth (c : element ReactElement -> nat) :
  forall cs k x,
    nth_error cs k = Some x ->
    list_sum (map c (remove_nth k cs)) + c x = list_sum (map c cs).
Proof.
  induction cs as [|y cs IH]; intros [|k] x H; simpl in *; try discriminate.
  - injection H as ->. lia.
  - specialize (IH k x H). lia.
Qed.

(** Rewriting one element changes the count of an id by what the
    rewriting changes in that element. *)
Lemma count_update (a : jsstring)
  (f : element ReactElement -> element ReactElement) :
  forall tp doc t,
    subtree tp doc = Some t ->
    count_id a (update_at tp f doc) + count_id a t
    = count_id a doc + count_id a (f t).
Proof.
  induction tp as [|k tp IH]; intros doc t H; simpl in *.
  - injection H as ->. lia.
  - destruct doc as [i s cs]. simpl in *.
    destruct (nth_error cs k) as [c|] eqn:Hc; [| discriminate].
    specialize (IH c t H).
    pose proof (list_sum_map_nth (count_id a) (update_at tp f) cs k Hc).
    lia.
Qed.

(** ** Appending and removing next to other elements with the id *)



End Tree.

Section Push.
Variable ReactElement : Type.
Variable g : HulkAlertGlobalOptionsProps.
Implicit Types (doc t : element ReactElement) (tp : path)
  (o : HulkAlertOptionsProps) (node : ReactNode ReactElement).

(** The container of a call stays the container when a document is
    rewritten so that every element found by id before is found at the
    same place after. *)
Lemma resolve_target_stable doc doc' o tp :
  resolve_target g doc o = Some tp ->
  (forall i, getElementById doc i = Some tp ->
             getElementById doc' i = Some tp) ->
  resolve_target g doc' o = Some tp.
Proof.
  unfold resolve_target. intros H Hsame.
  destruct (opt_targetId o) as [[|c i]|]; now apply Hsame.
Qed.

Lemma getElementById_stable doc tp f i :
  (forall n, id_of (f n) = id_of n) ->
  getElementById doc i = Some tp ->
  getElementById (update_at tp f doc) i = Some tp.
Proof.
  intros Hid. destruct i as [|c i]; [discriminate|]. simpl.
  now apply find_id_stable.
Qed.

Lemma resolve_target_found doc o tp :
  resolve_target g doc o = Some tp -> exists t, subtree tp doc = Some t.
Proof.
  unfold resolve_target, getElementById. intros H.
  destruct (opt_targetId o) as [[|c i]|].
  - destruct (targetId g); [discriminate|]. eapply find_id_subtree; eauto.
  - eapply find_id_subtree; eauto.
  - destruct (targetId g); [discriminate|]. eapply find_id_subtree; eauto.
Qed.

(** A first push into a document without the alert's id appends the
    new [div] to the container. *)
Lemma push_fresh node o doc tp :
  resolve_target g doc o = Some tp ->
  truthy node = true ->
  count_id (alertId o) doc = 0 ->
  push g node o doc
  = Normal (appendChild doc tp (alert_div (alertId o) node)).
Proof.
  intros Htarget Htruthy Hcount. unfold push.
  rewrite Htarget, Htruthy.
  assert (Hnone : getElementById doc (alertId o) = None).
  { destruct (alertId o); [reflexivity|]. simpl. now apply find_id_none. }
  rewrite Hnone. destruct (replaceDuplicates g); reflexivity.
Qed.

Lemma target_kept doc o tp (f : element ReactElement -> element ReactElement) :
  (forall n, id_of (f n) = id_of n) ->
  resolve_target g doc o = Some tp ->
  resolve_target g (update_at tp f doc) o = Some tp.
Proof.
  intros Hf Hd. eapply resolve_target_stable; [exact Hd|].
  intros i Hi. now apply getElementById_stable.
Qed.






End Push.

Import Examples MoreExamples.



End AlertFacts.

(* ================================================================== *)
(** * Further properties of the helpers *)
(* ================================================================== *)

Module HelpersMore.
Import JS JSON Web Helpers Shapes HelpersFacts.

(** ** Throwing maps and property order *)

Lemma map_throwing_normal A B (f : A -> completion B) (g : A -> B) xs :
  Forall (fun x => f x = Normal (g x)) xs ->
  map_throwing f xs = Normal (map g xs).
Proof.
  induction 1 as [|x xs Hx _ IH]; simpl; [reflexivity|].
  now rewrite Hx, IH.
Qed.

Lemma map_throwing_throws A B (f : A -> completion B) xs x :
  In x xs -> (exists e, f x = Throw e) ->
  exists e, map_throwing f xs = Throw e.
Proof.
  intros Hin [e He]. induction xs as [|y xs IH]; [destruct Hin|].
  simpl. destruct Hin as [-> | Hin].
  - rewrite He. eexists. reflexivity.
  - destruct (f y) as [b|e']; simpl; [| eexists; reflexivity].
    destruct (IH Hin) as [e' He']. rewrite He'. eexists. reflexivity.
Qed.

Lemma In_insert_by_index V n (kv : jsstring * V) sorted x :
  In x (map snd (insert_by_index n kv sorted)) <->
  x = kv \/ In x (map snd sorted).
Proof.
  induction sorted as [|[m kv'] sorted IH]; simpl.
  - intuition.
  - destruct (n <? m)%N; simpl; [intuition|].
    rewrite IH. intuition.
Qed.

Lemma In_split_keys V (o : object V) x :
  In x (map snd (fst (split_keys o)) ++ snd (split_keys o)) <-> In x o.
Proof.
  induction o as [|[k v] o IH]; simpl; [tauto|].
  destruct (split_keys o) as [ix named]. simpl in IH.
  rewrite in_app_iff in IH.
  destruct (array_index k); simpl; rewrite in_app_iff.
  - rewrite In_insert_by_index. intuition.
  - simpl. intuition.
Qed.

(** [Object.entries] lists every own property. *)
Lemma In_Object_entries V (o : object V) x :
  In x (Object_entries o) <-> In x o.
Proof.
  unfold Object_entries. rewrite <- (In_split_keys o x).
  destruct (split_keys o). reflexivity.
Qed.

Lemma split_keys_named V (o : object V) :
  Forall (fun kv => array_index (fst kv) = None) o ->
  split_keys o = ([], o).
Proof.
  induction 1 as [|[k v] o Hk _ IH]; [reflexivity|].
  simpl in *. now rewrite IH, Hk.
Qed.

(** Without array-index keys, the creation order is the enumeration
    order. *)
Lemma Object_entries_named V (o : object V) :
  Forall (fun kv => array_index (fst kv) = None) o ->
  Object_entries o = o.
Proof.
  intros H. unfold Object_entries. now rewrite (split_keys_named H).
Qed.

Lemma map_throwing_Forall A B (f : A -> completion B) (P : B -> Prop) xs ys :
  (forall x y, f x = Normal y -> P y) ->
  map_throwing f xs = Normal ys -> Forall P ys.
Proof.
  intros Hf. revert ys. induction xs as [|x xs IH]; simpl; intros ys H.
  - injection H as <-. constructor.
  - destruct (f x) as [y|] eqn:Hy; simpl in H; [| discriminate].
    destruct (map_throwing f xs) as [ys'|]; simpl in H; [| discriminate].
    injection H as <-. constructor; [eapply Hf; eassumption | now apply IH].
Qed.

Section WithRuntime.
Context {rt : Runtime}.

(** ** Lines *)

Lemma line_is_string formattedKey item x :
  line formattedKey item = Normal x -> is_JString x = true.
Proof.
  unfold line. destruct (message_or_String item) as [m|]; simpl;
    [| discriminate].
  destruct (ToString m); simpl; [| discriminate].
  now intros [= <-].
Qed.

Lemma line_of_string key m :
  line (if str_eqb key (lit "detail") then None
        else Some (capitalizeFirstLetter key)) (JString m)
  = Normal (JString (prefix_of key ++ m)).
Proof.
  unfold prefix_of.
  destruct (str_eqb key (lit "detail")); [reflexivity|].
  destruct (capitalizeFirstLetter key); reflexivity.
Qed.

Lemma line_of_null formattedKey : line formattedKey JNull = Throw TypeError.
Proof. reflexivity. Qed.

Lemma entry_lines_field kf :
  entry_lines (fst kf, field_value (snd kf)) = Normal (field_lines kf).
Proof.
  destruct kf as [key [m | ms]]; unfold entry_lines, field_lines; simpl fst;
    simpl snd; simpl field_value; cbv iota beta.
  - now rewrite line_of_string.
  - rewrite (@map_throwing_normal _ _ _
      (fun v => match v with
                | JString m => JString (prefix_of key ++ m)
                | _ => v
                end)).
    + now rewrite map_map.
    + apply Forall_forall. intros v Hv. apply in_map_iff in Hv.
      destruct Hv as (m & <- & _). apply line_of_string.
Qed.

Lemma entry_lines_null key v :
  holds_null v = true -> exists e, entry_lines (key, v) = Throw e.
Proof.
  destruct v as [| | | |items|]; try discriminate; simpl.
  - intros _. eexists. reflexivity.
  - intros H. apply existsb_exists in H. destruct H as (i & Hin & Hi).
    destruct i; try discriminate.
    eapply map_throwing_throws; [exact Hin|].
    eexists. apply line_of_null.
Qed.


(** ** What [parseErrorText] returns *)

(** X1. A validation object whose fields carry a message or a list of
    messages, and none of whose keys is an array index, gives one line
    per message, fields in the order of the text and messages in the
    order of their list; each line is the message behind the capitalized
    key and a colon, and the message alone under the key [detail] or
    the empty key. *)
Theorem parseErrorText_validation_object text fields :
  parse text = Some (validation_object fields) ->
  Forall (fun kf => array_index (fst kf) = None) fields ->
  parseErrorText text = flat_map field_lines fields.
Proof.
  intros Hparse Hkeys. apply parseErrorText_returned with (1 := Hparse).
  unfold validation_object, format_parsed.
  rewrite Object_entries_named.
  - rewrite (@map_throwing_normal _ _ _
      (fun kv => match kv with
                 | (k, JString m) => field_lines (k, One m)
                 | (k, JArray items) =>
                     field_lines
                       (k, Many (map (fun i => match i with
                                               | JString m => m
                                               | _ => []
                                               end) items))
                 | _ => []
                 end)).
    + simpl. f_equal. rewrite map_map, flat_map_concat_map. f_equal.
      apply map_ext. intros [k [m | ms]]; simpl; [reflexivity|].
      rewrite map_map. unfold field_lines. simpl.
      now rewrite (map_ext _ (fun m => m)), map_id by reflexivity.
    + apply Forall_forall. intros kv Hin. apply in_map_iff in Hin.
      destruct Hin as (kf & <- & _). rewrite entry_lines_field.
      destruct kf as [k [m | ms]]; simpl; [reflexivity|].
      rewrite map_map.
      now rewrite (map_ext _ (fun m => m)), map_id by reflexivity.
  - apply Forall_forall. intros kv Hin. apply in_map_iff in Hin.
    destruct Hin as (kf & <- & Hkf). simpl.
    exact (proj1 (Forall_forall _ _) Hkeys kf Hkf).
Qed.

(** X2. A top-level array whose items are strings or objects with a
    non-empty string [message] gives these strings and messages, in
    order. *)
Theorem parseErrorText_message_array text items msgs :
  parse text = Some (JArray items) ->
  map item_message items = map Some msgs ->
  parseErrorText text = map JString msgs.
Proof.
  intros Hparse Hitems. apply parseErrorText_returned with (1 := Hparse).
  clear Hparse. unfold format_parsed. revert msgs Hitems.
  induction items as [|item items IH]; intros [|m msgs] Hitems;
    try discriminate; [reflexivity|].
  simpl in Hitems. injection Hitems as Hitem Hrest.
  simpl. rewrite (IH _ Hrest).
  destruct item as [| | |s| |props]; try discriminate; simpl in *.
  - now injection Hitem as ->.
  - unfold message_or_String. simpl.
    destruct (obj_get props (lit "message")) as [[| | |[|c s]| |]|];
      try discriminate.
    now injection Hitem as <-.
Qed.

(** X3. A [null] where a message is read sends the whole text back: a
    [null] item of a top-level array, and in an object a [null] value or
    a [null] item of an array value.  Nothing of the other fields is
    reported then. *)
Theorem parseErrorText_null_gives_raw_text text :
  (exists items, parse text = Some (JArray items) /\ In JNull items)
  \/ (exists props key v,
        parse text = Some (JObject props)
        /\ In (key, v) props /\ holds_null v = true) ->
  parseErrorText text = [JString text].
Proof.
  intros H. apply parseErrorText_caught. right.
  destruct H as [(items & Hparse & Hin) | (props & key & v & Hparse & Hin & Hv)].
  - destruct (@map_throwing_throws _ _
      (fun item => if typeof_object item then message_or_String item
                   else cmap JString (ToString item)) items JNull Hin)
      as [e He]; [eexists; reflexivity|].
    exists (JArray items), e. now split.
  - apply In_Object_entries in Hin.
    destruct (@map_throwing_throws _ _ entry_lines _ _ Hin
                (entry_lines_null key v Hv)) as [e He].
    exists (JObject props), e. split; [assumption|].
    simpl. now rewrite He.
Qed.

(** X4. Unless the text is a JSON array, every element of the result is a
    string. *)
Theorem parseErrorText_strings_unless_array text :
  (forall items, parse text <> Some (JArray items)) ->
  forallb is_JString (parseErrorText text) = true.
Proof.
  intros Harr. unfold parseErrorText.
  destruct (parse text) as [parsed|]; [| reflexivity].
  destruct (format_parsed parsed) as [lines|] eqn:Hfmt; [| reflexivity].
  destruct parsed as [|b|l|s|items|props].
  1-4: unfold format_parsed in Hfmt;
       match type of Hfmt with
       | cmap _ ?c = _ => destruct c; [| discriminate]
       end; simpl in Hfmt; injection Hfmt as <-; reflexivity.
  - now destruct (Harr items).
  - simpl in Hfmt.
    destruct (map_throwing entry_lines (Object_entries props)) as [ls|] eqn:Hls;
      [| discriminate].
    simpl in Hfmt. injection Hfmt as <-.
    apply forallb_forall. intros x Hx. apply in_concat in Hx.
    destruct Hx as (l & Hl & Hx).
    assert (Hall : Forall (fun l => forall x, In x l -> is_JString x = true) ls).
    { apply map_throwing_Forall with (2 := Hls).
      intros [k v] y Hy z Hz. unfold entry_lines in Hy.
      destruct v as [| | | |items|];
        try (destruct (line _ _) as [w|] eqn:Hw in Hy; [| discriminate];
             simpl in Hy; injection Hy as <-; destruct Hz as [<- | []];
             exact (line_is_string _ _ Hw)).
      assert (Hfa : Forall (fun w => is_JString w = true) y).
      { eapply map_throwing_Forall; [| exact Hy].
        intros a b. apply line_is_string. }
      exact (proj1 (Forall_forall _ _) Hfa z Hz). }
    exact (proj1 (Forall_forall _ _) Hall l Hl x Hx).
Qed.

(** ** The library's error parser *)

(** X5. On a response whose body has not been read, [hulkFetchErrorParser]
    does not throw; it gives nothing exactly for the statuses 200 to
    299, and otherwise an error whose code is the status, whose message
    is the status text, or [An error occurred] when that is empty, and
    whose details are the lines of the body. *)
Theorem hulkFetchErrorParser_unread_body response :
  (hulkFetchErrorParser response false = Normal None
   <-> (200 <= status response <= 299)%Z)
  /\ exists result,
       hulkFetchErrorParser response false = Normal result
       /\ forall e, result = Some e ->
            code e = status response
            /\ message e <> []
            /\ (statusText response <> [] ->
                message e = statusText response)
            /\ (statusText response = [] ->
                message e = lit "An error occurred")
            /\ details e = Some (parseErrorText (body_text response)).
Proof.
  unfold hulkFetchErrorParser. rewrite FetchFacts.text_unread.
  unfold ok. simpl.
  split.
  - destruct (200 <=? status response)%Z eqn:Hlo;
      destruct (status response <=? 299)%Z eqn:Hhi; simpl;
      try apply Z.leb_le in Hlo; try apply Z.leb_le in Hhi;
      try apply Z.leb_gt in Hlo; try apply Z.leb_gt in Hhi;
      split; intros H; try discriminate; try reflexivity; lia.
  - destruct ((200 <=? status response)%Z && (status response <=? 299)%Z);
      eexists; (split; [reflexivity|]); intros e He; [discriminate|].
    injection He as <-. simpl.
    destruct (statusText response); repeat split; try congruence;
      discriminate.
Qed.

(** ** Capitalization *)

(** X6. On a text with an ASCII initial, [capitalizeFirstLetter] keeps the
    length and everything after the initial, turns a lower-case initial
    into its upper-case letter, leaves any other initial alone, and
    changes nothing when applied again. *)
Theorem capitalizeFirstLetter_ascii_initial (c : N) (rest : jsstring) :
  (c < 128)%N ->
  capitalizeFirstLetter (c :: rest)
    = (if (97 <=? c)%N && (c <=? 122)%N then (c - 32)%N else c) :: rest
  /\ List.length (capitalizeFirstLetter (c :: rest)) = S (List.length rest)
  /\ capitalizeFirstLetter (capitalizeFirstLetter (c :: rest))
     = capitalizeFirstLetter (c :: rest).
Proof.
  intros Hc. apply N.ltb_lt in Hc.
  assert (H1 : capitalizeFirstLetter (c :: rest)
    = (if (97 <=? c)%N && (c <=? 122)%N then (c - 32)%N else c) :: rest).
  { unfold capitalizeFirstLetter. simpl.
    destruct ((97 <=? c)%N && (c <=? 122)%N); [reflexivity|].
    now rewrite Hc. }
  split; [exact H1|]. rewrite H1. split; [reflexivity|].
  unfold capitalizeFirstLetter. simpl.
  destruct ((97 <=? c)%N && (c <=? 122)%N) eqn:Hlow.
  - apply andb_prop in Hlow. destruct Hlow as [Hlo Hhi].
    apply N.leb_le in Hlo. apply N.leb_le in Hhi.
    assert (Hup : ((97 <=? c - 32)%N && (c - 32 <=? 122)%N) = false).
    { apply andb_false_iff. left. apply N.leb_gt. lia. }
    rewrite Hup.
    assert (Hlt : (c - 32 <? 128)%N = true) by (apply N.ltb_lt; lia).
    now rewrite Hlt.
  - now rewrite Hlow, Hc.
Qed.

End WithRuntime.

Lemma parseErrorText_validation_object_witness :
  let text := quoted "{'email':['Required','Too long'],'detail':'Denied'}" in
  let fields := [(lit "email", Many [lit "Required"; lit "Too long"]);
                 (lit "detail", One (lit "Denied"))] in
  parse text = Some (validation_object fields)
  /\ Forall (fun kf => array_index (fst kf) = None) fields
  /\ parseErrorText (rt := ascii_engine) text
     = [JString (lit "Email: Required"); JString (lit "Email: Too long");
        JString (lit "Denied")].
Proof.
  intros text fields.
  assert (Hparse : parse text = Some (validation_object fields))
    by reflexivity.
  assert (Hkeys : Forall (fun kf => array_index (fst kf) = None) fields)
    by (repeat constructor).
  split; [exact Hparse|]. split; [exact Hkeys|].
  exact (@parseErrorText_validation_object ascii_engine text fields
           Hparse Hkeys).
Defined.

Lemma parseErrorText_message_array_witness :
  let text := quoted "['E1',{'code':7,'message':'E2'}]" in
  parseErrorText (rt := ascii_engine) text
  = [JString (lit "E1"); JString (lit "E2")].
Proof.
  intros text.
  refine (@parseErrorText_message_array ascii_engine text
            [JString (lit "E1");
             JObject [(lit "code", JNumber (lit "7"));
                      (lit "message", JString (lit "E2"))]]
            [lit "E1"; lit "E2"] _ _); reflexivity.
Defined.

Lemma parseErrorText_null_gives_raw_text_witness :
  let text := quoted "{'email':['Required'],'name':null}" in
  parseErrorText (rt := ascii_engine) text = [JString text].
Proof.
  intros text.
  apply (@parseErrorText_null_gives_raw_text ascii_engine text).
  right. exists [(lit "email", JArray [JString (lit "Required")]);
                 (lit "name", JNull)], (lit "name"), JNull.
  split; [reflexivity|]. split; [right; left; reflexivity | reflexivity].
Defined.

Lemma parseErrorText_strings_unless_array_witness :
  forallb is_JString
    (parseErrorText (rt := ascii_engine) (quoted "{'message':true}")) = true.
Proof.
  apply (@parseErrorText_strings_unless_array ascii_engine).
  intros items. discriminate.
Defined.

Lemma capitalizeFirstLetter_ascii_initial_witness :
  capitalizeFirstLetter (rt := ascii_engine) (lit "email") = lit "Email".
Proof.
  apply (@capitalizeFirstLetter_ascii_initial ascii_engine 101%N (lit "mail")).
  reflexivity.
Defined.

End HelpersMore.

(* ================================================================== *)
(** * Further properties of the auth state *)
(* ================================================================== *)

Module HocMore.
Import JS Hoc AuthRuns.

Section Auth.
Variable UserProps : Type.
Implicit Types S U V : HulkAuthStateProps UserProps.

(** X7. Two updates in a row are one update by their merge, an update
    repeated changes nothing more, and [reset] forgets every update made
    before it. *)
Theorem update_composes S U V d :
  update V (update U S) = update (update V U) S
  /\ update U (update U S) = update U S
  /\ reset d (update U S) = initial_state d
  /\ updates [U; V] S = update (update V U) S.
Proof.
  destruct S as [ts us], U as [tu uu], V as [tv uv].
  unfold updates, update, reset; simpl.
  destruct tu, tv, uu, uv; repeat split; reflexivity.
Qed.

Lemma update_keeps_token S U :
  token S <> None -> token (update U S) <> None.
Proof. simpl. destruct (token U); [discriminate | trivial]. Qed.

Lemma update_keeps_user S U :
  (exists u, user S = Value u) -> exists u, user (update U S) = Value u.
Proof.
  simpl. intros [u Hu]. destruct (user U) as [| |u']; simpl; eauto.
Qed.

Lemma update_keeps_session S U :
  isAuthenticated S = true -> keeps_session U = true ->
  isAuthenticated (update U S) = true.
Proof.
  unfold keeps_session, isAuthenticated. simpl.
  destruct (token U); simpl; auto.
Qed.

(** X8. No sequence of updates signs out: a token stays a token and a user
    stays a user whatever the updates carry, [undefined] and [null]
    included, and the session stays authenticated as long as no update
    carries a token with an empty [access_token].  Only [reset] ends a
    session. *)
Theorem updates_never_sign_out (Us : list (HulkAuthStateProps UserProps)) S :
  (token S <> None -> token (updates Us S) <> None)
  /\ ((exists u, user S = Value u) ->
      exists u, user (updates Us S) = Value u)
  /\ (isAuthenticated S = true ->
      forallb (@keeps_session UserProps) Us = true ->
      isAuthenticated (updates Us S) = true).
Proof.
  unfold updates. revert S.
  induction Us as [|U Us IH]; intros S; simpl; [tauto|].
  destruct (IH (update U S)) as (Ht & Hu & Ha).
  repeat split.
  - intros H. apply Ht. now apply update_keeps_token.
  - intros H. apply Hu. now apply update_keeps_user.
  - intros H Hall. apply andb_prop in Hall. destruct Hall as [HU Hall].
    apply Ha; [| exact Hall]. now apply update_keeps_session.
Qed.

End Auth.
End HocMore.

(* ================================================================== *)
(** * The query string of a request *)
(* ================================================================== *)

Module FetchQuery.
Import JS JSON Web Helpers Hoc Fetch HocFacts FetchFacts Views.

Lemma obj_get_In V (o : object V) k v :
  NoDup (map fst o) -> In (k, v) o -> obj_get o k = Some v.
Proof.
  induction o as [|[k' v'] o IH]; intros Hnd Hin; [destruct Hin|].
  simpl in Hnd. inversion Hnd as [|? ? Hnotin Hnd']; subst.
  simpl. destruct Hin as [Heq | Hin].
  - injection Heq as -> ->. now rewrite str_eqb_refl.
  - destruct (str_eqb k' k) eqn:E; [| now apply IH].
    apply str_eqb_eq in E. subst k'.
    destruct Hnotin. apply in_map_iff. now exists (k, v).
Qed.

Lemma append_query_fold (q : object queryvalue) l : forall u,
  (forall kv, In kv l -> obj_get q (fst kv) = Some (snd kv)) ->
  fold_left (fun u key =>
    match obj_get q key with
    | None | Some QUndefined => u
    | Some (QNumber n) =>
        if isNaN n then u
        else {| href := href u;
                appended := appended u ++ [(key, toString n)] |}
    | Some QNull =>
        {| href := href u; appended := appended u ++ [(key, lit "null")] |}
    | Some (QString s) =>
        {| href := href u; appended := appended u ++ [(key, s)] |}
    | Some (QBool b) =>
        {| href := href u;
           appended := appended u ++
             [(key, if b then lit "true" else lit "false")] |}
    end) (map fst l) u
  = {| href := href u; appended := appended u ++ flat_map query_param l |}.
Proof.
  induction l as [|[k v] l IH]; intros u Hget; simpl.
  - rewrite app_nil_r. now destruct u.
  - pose proof (Hget (k, v) (or_introl eq_refl)) as Hk. simpl in Hk.
    rewrite Hk.
    rewrite IH by (intros kv Hin; apply Hget; now right).
    unfold query_param at 2. simpl.
    destruct v as [s|n|b| |]; simpl; try destruct (isNaN n); simpl;
      rewrite <- ?app_assoc; reflexivity.
Qed.

(** X9. The query of a request, for an object written with distinct keys:
    the address is untouched and one pair is appended per property in
    the order of [Object.keys] (array indices first), the value being
    its [toString()], or [null] for [null]; [undefined] and [NaN]
    properties are skipped.  Without array-index keys this is the order
    in which the properties were written. *)
Theorem append_query_params (url : URL) (q : object queryvalue) :
  NoDup (map fst q) ->
  append_query url q
    = {| href := href url;
         appended := appended url ++ flat_map query_param (Object_entries q) |}
  /\ (Forall (fun kv => array_index (fst kv) = None) q ->
      appended (append_query url q)
      = appended url ++ flat_map query_param q).
Proof.
  intros Hnd.
  assert (H : append_query url q
    = {| href := href url;
         appended := appended url ++ flat_map query_param (Object_entries q) |}).
  { unfold append_query, Object_keys. apply append_query_fold.
    intros [k v] Hin. simpl. apply obj_get_In; [exact Hnd|].
    exact (proj1 (HelpersMore.In_Object_entries _ _) Hin). }
  split; [exact H|].
  intros Hnamed. rewrite H. simpl.
  now rewrite HelpersMore.Object_entries_named.
Qed.

Lemma append_query_params_witness :
  let q := [(lit "page", QNumber {| isNaN := false; isZero := false;
                                    toString := lit "2" |});
            (lit "tag", QUndefined);
            (lit "draft", QBool false);
            (lit "owner", QNull)] in
  append_query {| href := lit "https://api.test.com/items"; appended := [] |} q
  = {| href := lit "https://api.test.com/items";
       appended := [(lit "page", lit "2"); (lit "draft", lit "false");
                    (lit "owner", lit "null")] |}.
Proof.
  intros q.
  refine (proj1 (@append_query_params
            {| href := lit "https://api.test.com/items"; appended := [] |}
            q _)).
  repeat constructor; simpl; intuition discriminate.
Defined.

End FetchQuery.

(* ================================================================== *)
(** * What a dispatch may change *)
(* ================================================================== *)

Module FetchEffects.
Import JS JSON Web Helpers Hoc Fetch HocFacts FetchFacts Views.

Section Effects.
Variable UserProps : Type.
Variable w : World.
Variable r : Render UserProps.
Implicit Types s : Store UserProps.

Lemma activation_effects init s :
  post (activation w r init) s (fun o s' =>
    user (auth s') = user (auth s)
    /\ token_kept_or_refreshed r s s'
    /\ match o with
       | Resolved (Some _) =>
           data s' = data s
           /\ success_reports s' = success_reports s
           /\ error_reports s' = error_reports s
       | _ => nothing_stored s s' \/ body_stored w s s'
       end).
Proof.
  unfold token_kept_or_refreshed, nothing_stored, body_stored.
  wp; tidy.
  all: unfold success_reports, error_reports.
  all: cbn [threshold auth data trace flat_map app].
  all: rewrite ?update_undefined_is_identity.
  all: try solve [repeat split; auto].
  all: try solve [split; [reflexivity|]; split; [left; reflexivity|];
                  left; repeat split; eauto].
  all: repeat match goal with
       | H : (if ?b then _ else None) = Some _ |- _ =>
           destruct b eqn:?; [| discriminate H]
       | H : json_of ?resp = Normal _ |- _ =>
           unfold json_of in H; destruct (parse (body_text resp)) eqn:?;
           [injection H as <- | discriminate H]
       end.
  all: cbn [update token user undefined_or nullish_or].
  all: try solve [split; [reflexivity|]; split;
                  [right; do 3 eexists; repeat split; eassumption|];
                  repeat split; reflexivity].
  all: try solve [split; [reflexivity|]; split; [left; reflexivity|];
                  right; do 4 eexists;
                  split; [eassumption|]; split; [assumption|];
                  split; [eassumption|]; split; [reflexivity|];
                  split; [reflexivity|];
                  ((left; reflexivity) || (right; reflexivity))].
Qed.

Lemma token_kept_or_refreshed_trans s s1 s2 :
  token_kept_or_refreshed r s s1 -> token_kept_or_refreshed r s1 s2 ->
  token_kept_or_refreshed r s s2.
Proof.
  unfold token_kept_or_refreshed.
  intros [H1 | H1] [H2 | H2]; auto.
  - left. congruence.
  - right. destruct H1 as (rho & n & t & ? & ? & ?).
    exists rho, n, t. repeat split; congruence.
Qed.

Lemma dispatch_steps_effects fuel : forall init s,
  post (dispatch_steps w r fuel init) s (fun o s' =>
    user (auth s') = user (auth s)
    /\ token_kept_or_refreshed r s s'
    /\ (nothing_stored s s' \/ body_stored w s s')).
Proof.
  induction fuel as [|fuel IH]; intros init s.
  - unfold post; simpl. split; [reflexivity|]. split; [now left|].
    left. repeat split. now left.
  - cbn [dispatch_steps]. apply post_bind.
    eapply post_weaken; [apply activation_effects|].
    intros [[init'|]|e|] s1 (Huser & Htoken & Hrest); cbn beta iota.
    + destruct Hrest as (Hdata & Hsucc & Herr).
      eapply post_weaken; [apply IH|].
      intros o s' (Huser' & Htoken' & Hrest').
      split; [congruence|].
      split; [eapply token_kept_or_refreshed_trans; eassumption|].
      unfold nothing_stored, body_stored in *.
      rewrite <- Hdata, <- Hsucc, <- Herr. exact Hrest'.
    + apply post_ret. auto.
    + auto.
    + auto.
Qed.

(** X10. The writes of [dispatch] itself to the auth state.  A
    callback or a collaborator is seen here through the way it ends
    only; what it may do to the auth state on its own (an [onError]
    that calls [auth.reset()]) is outside this statement.  Whatever the
    server answers and however the callbacks and the refresh
    collaborator end, the calls of [auth.update] that [dispatch] makes
    leave the user of the auth state alone, and leave as token the one
    from before or a credential that the configured refresh
    collaborator returned: [dispatch] by itself never signs out. *)
Theorem dispatch_auth_effect init s :
  post (dispatch w r init) s (fun _ s' =>
    user (auth s') = user (auth s)
    /\ token_kept_or_refreshed r s s'
    /\ (token (auth s) <> None -> token (auth s') <> None)).
Proof.
  eapply post_weaken; [apply dispatch_steps_effects|].
  intros o s' (Huser & Htoken & _).
  split; [exact Huser|]. split; [exact Htoken|].
  intros Hsome. destruct Htoken as [-> | (rho & n & t & _ & _ & ->)];
    [exact Hsome | discriminate].
Qed.

(** X11. Whatever the world does, a dispatch either stores nothing and
    reports no success and at most one error, or stores the parsed body
    of a 2xx response, reports no error, and hands [onSuccess], if it
    calls it, the very value it stored.  So [data] never holds an error
    body, and it changes at most to what [onSuccess] receives. *)
Theorem dispatch_data_effect init s :
  post (dispatch w r init) s (fun _ s' =>
    nothing_stored s s' \/ body_stored w s s').
Proof.
  eapply post_weaken; [apply dispatch_steps_effects|].
  intros o s' (_ & _ & H). exact H.
Qed.

End Effects.

End FetchEffects.

(* ================================================================== *)
(** * The requests of one dispatch *)
(* ================================================================== *)

Module FetchRequests.
Import JS JSON Web Helpers Hoc Fetch HocFacts FetchFacts Views.

Section Requests.
Variable UserProps : Type.
Variable w : World.
Variable r : Render UserProps.
Implicit Types s : Store UserProps.

(** An activation sends nothing and rejects, or sends the request of
    its argument; a retry is called with that request's [init] and the
    fresh credential. *)
Lemma activation_request init s :
  post (activation w r init) s (fun o s' =>
    (requests s' = requests s /\ exists e, o = Rejected e)
    \/ exists u,
         new_URL w (input r) (base_of r) = Normal u
         /\ requests s' = request_of r u init :: requests s
         /\ match o with
            | Resolved (Some init') =>
                exists fresh,
                  init' = retry_init fresh (attach_token r (merge_init r init))
            | _ => True
            end).
Proof.
  wp; tidy.
  all: unfold requests; cbn [trace flat_map app].
  all: try solve [left; split; [reflexivity | eexists; reflexivity]].
  all: right; eexists; (split; [eassumption|]); (split; [reflexivity|]).
  all: try exact I.
  all: eexists; reflexivity.
Qed.

Lemma attach_token_fields init :
  method (attach_token r init) = method init
  /\ reqbody (attach_token r init) = reqbody init
  /\ query (attach_token r init) = query init.
Proof.
  unfold attach_token. destruct (token (hulk_auth_state r)); now repeat split.
Qed.

Lemma same_target_refl (q : Request) : same_target q q.
Proof. now repeat split. Qed.

Lemma same_target_trans (q1 q2 q3 : Request) :
  same_target q1 q2 -> same_target q2 q3 -> same_target q1 q3.
Proof.
  unfold same_target. intros (? & ? & ? & ?) (? & ? & ? & ?).
  repeat split; congruence.
Qed.

(** The request of a retry asks for what the request before it asked. *)
Lemma retry_same_target u fresh init :
  same_target
    (request_of r u (retry_init fresh (attach_token r (merge_init r init))))
    (request_of r u init).
Proof.
  destruct (attach_token_fields (merge_init r init)) as (Hm & Hb & Hq).
  unfold same_target, request_of, request_url. cbn [req_url req_init].
  rewrite !(proj1 (attach_token_fields _)).
  rewrite !(proj1 (proj2 (attach_token_fields _))).
  rewrite !(proj2 (proj2 (attach_token_fields _))).
  cbn [merge_init retry_init with_authorization method reqbody query].
  rewrite Hm, Hb, Hq. cbn [merge_init method reqbody query].
  repeat split.
  destruct (method init); reflexivity.
Qed.

Lemma dispatch_steps_requests fuel : forall init s,
  post (dispatch_steps w r fuel init) s (fun _ s' =>
    exists qs,
      sent qs s s'
      /\ Forall (fun q =>
           exists u,
             new_URL w (input r) (base_of r) = Normal u
             /\ same_target q (request_of r u init)
             /\ forall t, token (hulk_auth_state r) = Some t ->
                          authorization q = Some (bearer t)) qs).
Proof.
  unfold sent.
  induction fuel as [|fuel IH]; intros init s.
  - exists []. split; [reflexivity | constructor].
  - cbn [dispatch_steps]. apply post_bind.
    eapply post_weaken; [apply activation_request|].
    intros o s1 [(Hsame & e & ->) | (u & Hu & Hreq & Hnext)]; cbn beta iota.
    + exists []. split; [exact Hsame | constructor].
    + assert (Hthis : Forall (fun q =>
           exists u,
             new_URL w (input r) (base_of r) = Normal u
             /\ same_target q (request_of r u init)
             /\ forall t, token (hulk_auth_state r) = Some t ->
                          authorization q = Some (bearer t))
           [request_of r u init]).
      { constructor; [| constructor]. exists u.
        split; [exact Hu|]. split; [apply same_target_refl|].
        intros t Ht. now apply attach_token_present. }
      destruct o as [[init'|]|e|]; cbn beta iota.
      * destruct Hnext as (fresh & ->).
        eapply post_weaken; [apply IH|].
        intros _ s' (qs & Hsent & Hall).
        exists (qs ++ [request_of r u init]). split.
        { rewrite Hsent, Hreq, <- app_assoc. reflexivity. }
        apply Forall_app. split; [| exact Hthis].
        eapply Forall_impl; [| exact Hall].
        intros q (u' & Hu' & Htarget & Hauth). exists u'.
        split; [exact Hu'|]. split; [| exact Hauth].
        eapply same_target_trans; [exact Htarget|].
        apply retry_same_target.
      * apply post_ret. exists [request_of r u init]. now split.
      * exists [request_of r u init]. now split.
      * exists [request_of r u init]. now split.
Qed.

(** X12. Every request of one dispatch, the first and each retry, asks for
    the same thing: the URL built from the hook's input, the base URL
    and the query of the call, with the method and the body of the
    call.  Retries change headers only. *)
Theorem retries_repeat_the_request init s :
  post (dispatch w r init) s (fun _ s' =>
    exists qs,
      sent qs s s'
      /\ (forall q, In q qs ->
            exists u,
              new_URL w (input r) (base_of r) = Normal u
              /\ same_target q (request_of r u init))
      /\ (forall q q', In q qs -> In q' qs -> same_target q q')).
Proof.
  eapply post_weaken; [apply dispatch_steps_requests|].
  intros _ s' (qs & Hsent & Hall). exists qs. split; [exact Hsent|].
  rewrite Forall_forall in Hall. split.
  - intros q Hq. destruct (Hall q Hq) as (u & Hu & Ht & _). eauto.
  - intros q q' Hq Hq'.
    destruct (Hall q Hq) as (u & Hu & Ht & _).
    destruct (Hall q' Hq') as (u' & Hu' & Ht' & _).
    rewrite Hu in Hu'. injection Hu' as <-.
    eapply same_target_trans; [exact Ht|].
    destruct Ht' as (? & ? & ? & ?). now repeat split.
Qed.

(** X13. When the hook was rendered with a credential, every request of a
    dispatch through that closure carries it, the retries after a
    successful refresh included. *)
Theorem requests_carry_captured_token t init s :
  token (hulk_auth_state r) = Some t ->
  post (dispatch w r init) s (fun _ s' =>
    exists qs,
      sent qs s s'
      /\ Forall (fun q => authorization q = Some (bearer t)) qs).
Proof.
  intros Ht.
  eapply post_weaken; [apply dispatch_steps_requests|].
  intros _ s' (qs & Hsent & Hall). exists qs. split; [exact Hsent|].
  eapply Forall_impl; [| exact Hall].
  intros q (_ & _ & _ & Hauth). now apply Hauth.
Qed.

End Requests.

Import Examples.

Lemma requests_carry_captured_token_witness :
  let r := hook once_401 signed_in refresh_succeeds in
  let s := fresh_store r None in
  token (hulk_auth_state r) = Some {| access_token := lit "old" |}
  /\ exists qs,
       sent qs s (snd (dispatch once_401 r empty_init s))
       /\ List.length qs = 2
       /\ Forall (fun q => authorization q = Some (lit "Bearer old")) qs.
Proof.
  intros r s. split; [reflexivity|].
  destruct (@requests_carry_captured_token User once_401 r
              {| access_token := lit "old" |} empty_init s eq_refl)
    as (qs & Hsent & Hall).
  exists qs. split; [exact Hsent|]. split; [| exact Hall].
  unfold sent in Hsent. apply (f_equal (@List.length _)) in Hsent.
  rewrite length_app in Hsent.
  change (2 = List.length qs + 0) in Hsent. lia.
Defined.

End FetchRequests.

(* ================================================================== *)
(** * The order of the callbacks *)
(* ================================================================== *)

Module FetchProtocol.
Import JS JSON Web Helpers Hoc Fetch HocFacts FetchFacts Views.

Section Protocol.
Variable UserProps : Type.
Variable w : World.
Variable r : Render UserProps.
Implicit Types s : Store UserProps.

Section Configured.
Variable fp : phase -> completion unit.
Variable fe : option HulkFetchErrorProps -> completion unit.
Variable fs : json -> completion unit.
Hypothesis Hpending : pick r onPending = Some fp.
Hypothesis Herror : pick r onError = Some fe.
Hypothesis Hsuccess : pick r onSuccess = Some fs.

Lemma activation_protocol init s :
  post (activation w r init) s (fun o s' =>
    match o with
    | Resolved (Some _) => exists q, protocol s' = attempt q ++ protocol s
    | Resolved None =>
        exists q last,
          is_report last = true
          /\ protocol s' = last :: EvPending PEnd :: attempt q ++ protocol s
    | Rejected _ => True
    | Unfinished => False
    end).
Proof.
  wp; tidy.
  all: try exact I.
  all: try discriminate.
  all: unfold protocol, attempt; cbn [trace filter app].
  all: try solve [eexists; reflexivity].
  all: try solve [do 2 eexists; split; [| reflexivity]; reflexivity].
Qed.

Lemma dispatch_steps_protocol fuel : forall init s,
  post (dispatch_steps w r fuel init) s (fun o s' =>
    o = Resolved tt ->
    exists qs last,
      qs <> []
      /\ is_report last = true
      /\ protocol s'
         = last :: EvPending PEnd :: flat_map attempt qs ++ protocol s).
Proof.
  induction fuel as [|fuel IH]; intros init s; [discriminate|].
  cbn [dispatch_steps]. apply post_bind.
  eapply post_weaken; [apply activation_protocol|].
  intros [[init'|]|e|] s1 H; cbn beta iota.
  - destruct H as (q & Hq).
    eapply post_weaken; [apply IH|].
    intros o s' Hrest Ho. destruct (Hrest Ho) as (qs & last & Hne & Hlast & Hp).
    exists (qs ++ [q]), last. split; [now destruct qs|].
    split; [exact Hlast|].
    rewrite Hp, Hq, flat_map_app, <- app_assoc. simpl.
    rewrite ?app_nil_r. reflexivity.
  - apply post_ret. intros _. destruct H as (q & last & Hlast & Hp).
    exists [q], last. split; [discriminate|]. split; [exact Hlast|].
    rewrite Hp. simpl. rewrite ?app_nil_r. reflexivity.
  - discriminate.
  - destruct H.
Qed.

(** X14. With the three callbacks configured, a dispatch that resolves has
    called, whatever the world did: [onPending("start")] and then
    [fetch], once for the call and once more for each retry; then
    [onPending("end")], once; then one of [onError] and [onSuccess],
    once; and none of them at any other moment. *)
Theorem callbacks_in_order init s :
  post (dispatch w r init) s (fun o s' =>
    o <> Unfinished
    /\ (o = Resolved tt ->
        exists qs last,
          qs <> []
          /\ List.length qs <= S maxThreshold
          /\ is_report last = true
          /\ protocol s'
             = last :: EvPending PEnd :: flat_map attempt qs ++ protocol s)).
Proof.
  eapply post_weaken.
  { apply post_conj; [apply dispatch_steps_protocol|].
    apply (dispatch_steps_spec w r (fuel := S maxThreshold) init s).
    unfold maxThreshold. lia. }
  intros o s' (Hp & Hfin & Hbound & _). split; [exact Hfin|].
  intros Ho. destruct (Hp Ho) as (qs & last & Hne & Hlast & Hprot).
  exists qs, last. repeat split; try assumption.
  assert (Hcount : fetches s' = List.length qs + fetches s).
  { unfold fetches.
    assert (Hf : forall t : list event,
               filter is_fetch t
               = filter is_fetch
                   (filter (fun e =>
                      match e with
                      | EvPending _ | EvError _ | EvSuccess _
                      | EvFetch _ => true
                      | _ => false
                      end) t)).
    { induction t as [|[] t IHt]; simpl; congruence. }
    rewrite (Hf (trace s')), (Hf (trace s)).
    fold (protocol s'). fold (protocol s). rewrite Hprot.
    destruct last; try discriminate; cbn [filter is_fetch];
      rewrite filter_app, length_app; f_equal;
      clear; induction qs as [|q qs IHq]; simpl; congruence. }
  unfold maxThreshold in *. lia.
Qed.

End Configured.
End Protocol.

Import Examples.

Lemma callbacks_in_order_witness :
  let r := hook once_401 signed_out refresh_succeeds in
  let s := fresh_store r None in
  let s' := snd (dispatch once_401 r empty_init s) in
  fst (dispatch once_401 r empty_init s) = Resolved tt
  /\ exists qs last,
       List.length qs <= S maxThreshold
       /\ is_report last = true
       /\ protocol s'
          = last :: EvPending PEnd :: flat_map attempt qs ++ protocol s.
Proof.
  intros r s s'. split; [reflexivity|].
  destruct (@callbacks_in_order User once_401 r
              (fun _ => Normal tt) (fun _ => Normal tt) (fun _ => Normal tt)
              eq_refl eq_refl eq_refl empty_init s) as (_ & H).
  destruct (H eq_refl) as (qs & last & _ & Hlen & Hlast & Hp).
  exists qs, last. repeat split; assumption.
Defined.

End FetchProtocol.

(* ================================================================== *)
(** * The ways through one dispatch *)
(* ================================================================== *)

Module FetchPaths.
Import JS JSON Web Helpers Hoc Fetch HocFacts FetchFacts Views.

Lemma ok_not_unauthorized (response : Response) :
  ok response = true -> unauthorized response = false.
Proof.
  unfold ok, unauthorized. intros H. apply andb_prop in H.
  destruct H as [Hlo Hhi]. apply Z.leb_le in Hlo. apply Z.leb_le in Hhi.
  apply orb_false_iff. split; apply Z.eqb_neq; lia.
Qed.

(** The address the constructor resolved to is known. *)
Ltac resolved Hurl :=
  match goal with
  | H : Throw _ = Normal _ |- _ => discriminate H
  | H : Normal _ = Normal _ |- _ => injection H as H; subst
  | H : new_URL _ _ _ = _ |- _ =>
      let E := fresh "E" in
      pose proof (eq_trans (eq_sym H) Hurl) as E; clear H;
      first [discriminate E | injection E as E; subst]
  end.

(** The answer to the one network call of the path is known. *)
Ltac answered Hfetch :=
  match goal with
  | F : fetch _ _ _ = _ |- _ =>
      let E := fresh "E" in
      pose proof (eq_trans (eq_sym F) Hfetch) as E; clear F;
      first [discriminate E | injection E as E; subst]
  end.

(** What is left once the path is known: the views of the store. *)
Ltac finish :=
  unfold sent, requests, success_reports, error_reports, errors_with,
    fetches, refreshes, redirects, start_threshold;
  cbn [threshold auth data trace filter flat_map is_fetch is_refresh
       app List.length];
  rewrite ?update_undefined_is_identity;
  try match goal with H : clearThreshold ?i = _ |- _ => rewrite H end;
  repeat split; try reflexivity.

Section Paths.
Variable UserProps : Type.
Variable w : World.
Variable r : Render UserProps.
Implicit Types s : Store UserProps.

(** X15. Without a refresh collaborator there is no retry, no refresh and no
    redirect, whatever the server answers, 401 and 403 included: at
    most one network call, the auth state and the redirect target left
    alone. *)
Theorem no_refresh_collaborator init s :
  accessTokenRetriever (fetchGlobalOptions r) = None ->
  post (dispatch w r init) s (fun o s' =>
    o <> Unfinished
    /\ fetches s' <= S (fetches s)
    /\ refreshes s' = refreshes s
    /\ auth s' = auth s
    /\ redirects s' = redirects s
    /\ threshold s' = start_threshold init s).
Proof.
  intros Hnone. unfold dispatch. cbn [dispatch_steps].
  wp; tidy.
  all: repeat match goal with
       | H : (if ?b then _ else None) = Some _ |- _ =>
           rewrite Hnone in H; destruct b; discriminate H
       end.
  all: unfold fetches, refreshes, redirects, start_threshold.
  all: cbn [threshold auth data trace filter flat_map is_fetch is_refresh
            app List.length].
  all: try match goal with H : clearThreshold ?i = _ |- _ => rewrite H end.
  all: repeat split; try discriminate; try reflexivity; try lia.
Qed.

Section OneCall.
Variable init : HulkFetchProps.
Variable s : Store UserProps.
Variable u : jsstring.

Hypothesis Hcalls : callbacks_return r.
Hypothesis Hurl : new_URL w (input r) (base_of r) = Normal u.


(** X17. A transport failure ([fetch] rejects) is not retried: the call
    resolves after this one network call and reports one error with
    code 500, the fallback [Network error] without a parser and, through
    the library's parser, [Network Error] with the stand-in body as its
    only detail.  [data], the auth state and the location are left
    alone. *)
Theorem transport_failure_path err :
  fetch w (fetches s) (request_of r u init) = Throw err ->
  parser_choice r ->
  post (dispatch w r init) s (fun o s' =>
    o = Resolved tt
    /\ sent [request_of r u init] s s'
    /\ error_reports s'
       = errors_with r
           (Some (match errorParser (fetchGlobalOptions r) with
                  | None => network_error
                  | Some _ => parsed_network_error
                  end)) s
    /\ success_reports s' = success_reports s
    /\ data s' = data s
    /\ auth s' = auth s
    /\ threshold s' = start_threshold init s
    /\ refreshes s' = refreshes s
    /\ redirects s' = redirects s).
Proof.
  intros Hfetch Hparser.
  destruct Hcalls as (Hpend & Herr & Hsucc).
  unfold dispatch, errors_with. cbn [dispatch_steps].
  destruct Hparser as [Hp | rt Hp]; rewrite Hp; unfold activation, parse_error;
    rewrite Hp.
  all: wp; tidy.
  all: try resolved Hurl.
  all: try solve [no_throw I Hpend Herr Hsucc I I].
  all: answered Hfetch.
  all: repeat match goal with
       | H : hulkFetchErrorParser mockResponse false = _ |- _ =>
           vm_compute in H; first [discriminate H | injection H as <-]
       end.
  all: finish.
Qed.

(** X18. Another HTTP error (a status outside 2xx that does not start a
    refresh), without an error parser: the call resolves after this one
    network call and reports
    [{ message: statusText || "An error occurred", code: status }];
    [data], the auth state and the location are left alone. *)
Theorem http_error_path response :
  fetch w (fetches s) (request_of r u init) = Normal response ->
  ok response = false ->
  unauthorized response = false
  \/ accessTokenRetriever (fetchGlobalOptions r) = None ->
  errorParser (fetchGlobalOptions r) = None ->
  post (dispatch w r init) s (fun o s' =>
    o = Resolved tt
    /\ sent [request_of r u init] s s'
    /\ error_reports s' = errors_with r (Some (http_error response)) s
    /\ success_reports s' = success_reports s
    /\ data s' = data s
    /\ auth s' = auth s
    /\ threshold s' = start_threshold init s
    /\ refreshes s' = refreshes s
    /\ redirects s' = redirects s).
Proof.
  intros Hfetch Hok Hplain Hp.
  destruct Hcalls as (Hpend & Herr & Hsucc).
  unfold dispatch, errors_with. cbn [dispatch_steps].
  unfold activation, parse_error; rewrite Hp.
  wp; tidy.
  all: try resolved Hurl.
  all: try solve [no_throw I Hpend Herr Hsucc I I].
  all: answered Hfetch.
  all: repeat match goal with
       | H : (if unauthorized ?x then ?y else None) = Some _ |- _ =>
           destruct Hplain as [Hplain | Hplain]; rewrite Hplain in H;
           [discriminate H | destruct (unauthorized x); discriminate H]
       | H : ok _ = true |- _ => rewrite Hok in H; discriminate H
       | H : text _ false = Throw _ |- _ =>
           rewrite text_unread in H; discriminate H
       end.
  all: try discriminate.
  all: finish.
Qed.

(** X19. A status outside 2xx that does not start a refresh, with the
    library's [hulkFetchErrorParser] configured as error parser.  When
    the response carries a body, the branch has read it before it calls
    the parser, which reads it again: the call rejects with a
    [TypeError] after [onPending("end")], and [onError] is not called.
    When the response has no body (the answer to a HEAD request, a
    304), both reads give the empty text: the call resolves, and
    [onError] receives the status as code, the status text as message
    and the empty text as the only detail. *)
Theorem http_error_with_library_parser {rt : Runtime} response :
  fetch w (fetches s) (request_of r u init) = Normal response ->
  ok response = false ->
  unauthorized response = false
  \/ accessTokenRetriever (fetchGlobalOptions r) = None ->
  errorParser (fetchGlobalOptions r) = Some (hulkFetchErrorParser (rt := rt)) ->
  post (dispatch w r init) s (fun o s' =>
    sent [request_of r u init] s s'
    /\ success_reports s' = success_reports s
    /\ data s' = data s
    /\ auth s' = auth s
    /\ match body response with
       | Some _ =>
           o = Rejected TypeError
           /\ error_reports s' = error_reports s
           /\ protocol s'
              = match pick r onPending with
                | Some _ =>
                    EvPending PEnd
                    :: attempt (request_of r u init) ++ protocol s
                | None => EvFetch (request_of r u init) :: protocol s
                end
       | None =>
           o = Resolved tt
           /\ error_reports s'
              = errors_with r
                  (Some {| message := message (http_error response);
                           code := status response;
                           details := Some [JString []] |}) s
       end).
Proof.
  intros Hfetch Hok Hplain Hp.
  destruct Hcalls as (Hpend & Herr & Hsucc).
  unfold dispatch, errors_with. cbn [dispatch_steps].
  unfold activation, parse_error; rewrite Hp.
  destruct (body response) as [b|] eqn:Hb.
  all: wp; tidy.
  all: try resolved Hurl.
  all: try solve [no_throw I Hpend Herr Hsucc I I].
  all: answered Hfetch.
  all: repeat match goal with
       | H : (if unauthorized ?x then ?y else None) = Some _ |- _ =>
           destruct Hplain as [Hplain | Hplain]; rewrite Hplain in H;
           [discriminate H | destruct (unauthorized x); discriminate H]
       | H : ok _ = true |- _ => rewrite Hok in H; discriminate H
       | H : text _ false = Throw _ |- _ =>
           rewrite text_unread in H; discriminate H
       | H : hulkFetchErrorParser _ true = _ |- _ =>
           unfold hulkFetchErrorParser, text in H; rewrite Hb in H;
           cbn [cbind] in H; rewrite ?Hok in H;
           first [discriminate H | injection H as <-]
       end.
  all: try discriminate.
  all: unfold protocol, attempt; finish.
Qed.

(** X20. A 401 or 403 whose refresh gives no credential, with the library's
    [hulkFetchErrorParser] configured: here the body has not been read,
    so the parser works; the call resolves and [onError] receives the
    status as code, the status text as message and the lines of the body
    as details.  The auth state is left as it was, and [redirect] is
    called when its guards pass. *)
Theorem failed_refresh_with_library_parser {rt : Runtime} response rho :
  fetch w (fetches s) (request_of r u init) = Normal response ->
  unauthorized response = true ->
  accessTokenRetriever (fetchGlobalOptions r) = Some rho ->
  rho (refreshes s) = Normal None ->
  errorParser (fetchGlobalOptions r) = Some (hulkFetchErrorParser (rt := rt)) ->
  post (dispatch w r init) s (fun o s' =>
    o = Resolved tt
    /\ sent [request_of r u init] s s'
    /\ error_reports s'
       = errors_with r
           (Some {| message := message (http_error response);
                    code := status response;
                    details := Some (parseErrorText (body_text response)) |}) s
    /\ success_reports s' = success_reports s
    /\ data s' = data s
    /\ auth s' = auth s
    /\ refreshes s' = S (refreshes s)
    /\ redirects s'
       = match redirect_due r with
         | Some url => url :: redirects s
         | None => redirects s
         end).
Proof.
  intros Hfetch Hun Hrho Hnone Hp.
  assert (Hok : ok response = false).
  { destruct (ok response) eqn:E; [| reflexivity].
    apply ok_not_unauthorized in E. congruence. }
  destruct Hcalls as (Hpend & Herr & Hsucc).
  unfold dispatch, errors_with. cbn [dispatch_steps].
  unfold activation, parse_error; rewrite Hp, Hrho.
  wp; tidy.
  all: try resolved Hurl.
  all: try solve [no_throw I Hpend Herr Hsucc I I].
  all: answered Hfetch.
  all: repeat match goal with
       | H : (if unauthorized ?x then _ else None) = _ |- _ =>
           rewrite Hun in H; first [discriminate H | injection H as <-]
       end.
  all: unfold refreshes in Hnone.
  all: repeat match goal with
       | H : ?f (List.length (filter is_refresh (_ :: _))) = _ |- _ =>
           cbn [filter is_refresh] in H; rewrite Hnone in H;
           first [discriminate H | injection H as <-]
       | H : hulkFetchErrorParser _ false = _ |- _ =>
           unfold hulkFetchErrorParser in H; rewrite text_unread in H;
           cbn [cbind] in H; rewrite Hok in H;
           first [discriminate H | injection H as <-]
       end.
  all: try discriminate.
  all: finish.
Qed.

End OneCall.

(** X21. The threshold belongs to the closure, not to the call.  When
    every answer is 401 or 403 and every refresh succeeds (the URL can
    be built, the callbacks return, and the error parser, if any,
    resolves on an unread response, as the library's own parser does), a
    first call uses up what is left of the threshold, and a second call
    through the same closure makes one network call and gives up,
    unless it asks for [clearThreshold], which buys the full
    [maxThreshold] retries again. *)
Theorem threshold_outlives_the_call first second s :
  always_unauthorized w ->
  refresh_always_succeeds r ->
  well_behaved w r ->
  threshold s <= maxThreshold ->
  post (then_dispatch w r first second) s (fun o s' =>
    o = Resolved tt
    /\ threshold s' = maxThreshold
    /\ fetches s'
       = fetches s + S (maxThreshold - start_threshold first s)
         + match clearThreshold second with
           | Some true => S maxThreshold
           | _ => 1
           end).
Proof.
  intros Hworld Hrefresh Hbehaved Hle.
  unfold then_dispatch, dispatch. apply post_bind.
  eapply post_weaken.
  { apply (@dispatch_steps_unauthorized _ w r Hworld Hrefresh Hbehaved
             (maxThreshold - start_threshold first s)).
    - unfold start_threshold. destruct (clearThreshold first) as [[|]|]; lia.
    - lia. }
  intros o s1 (-> & Hmax & Hcount & _). cbn iota.
  eapply post_weaken.
  { apply (@dispatch_steps_unauthorized _ w r Hworld Hrefresh Hbehaved
             (maxThreshold - start_threshold second s1)).
    - unfold start_threshold. destruct (clearThreshold second) as [[|]|]; lia.
    - lia. }
  intros o s' (-> & Hmax' & Hcount' & _).
  split; [reflexivity|]. split; [exact Hmax'|].
  rewrite Hcount', Hcount.
  generalize (start_threshold first s). intros n.
  unfold start_threshold.
  destruct (clearThreshold second) as [[|]|]; rewrite ?Hmax;
    unfold maxThreshold; lia.
Qed.

End Paths.

(** ** The paths in the example configurations *)

Import Examples MoreExamples Shapes.

Lemma example_callbacks_return (w : World) a g :
  callbacks g = quiet_callbacks -> callbacks_return (hook w a g).
Proof.
  intros Hg. unfold callbacks_return, pick. cbn. rewrite Hg.
  repeat split; intros f x H; injection H as <-; reflexivity.
Qed.

Lemma no_refresh_collaborator_witness :
  let r := hook always_401 signed_in (without_refresh refresh_succeeds) in
  let s := fresh_store r None in
  let s' := snd (dispatch always_401 r empty_init s) in
  fetches s' <= 1 /\ refreshes s' = 0 /\ auth s' = signed_in
  /\ redirects s' = [].
Proof.
  intros r s s'.
  destruct (@no_refresh_collaborator User always_401 r empty_init s eq_refl)
    as (_ & Hf & Hr & Ha & Hd & _).
  repeat split; assumption.
Defined.


Lemma transport_failure_path_witness :
  let r := hook offline signed_in (with_library_parser refresh_succeeds) in
  let s := fresh_store r None in
  fst (dispatch offline r empty_init s) = Resolved tt
  /\ error_reports (snd (dispatch offline r empty_init s))
     = [Some parsed_network_error]
  /\ fetches (snd (dispatch offline r empty_init s)) = 1.
Proof.
  intros r s.
  destruct (@transport_failure_path User offline r empty_init s
              (lit "https://api.test.com/items")
              (example_callbacks_return offline signed_in
                 (with_library_parser refresh_succeeds) eq_refl)
              eq_refl TypeError eq_refl
              (@LibraryParser User r ascii_engine eq_refl))
    as (Ho & Hsent & He & _).
  split; [exact Ho|]. split; [exact He|].
  unfold sent in Hsent. unfold fetches. reflexivity.
Defined.

Lemma http_error_path_witness :
  let r := hook always_404 signed_in refresh_succeeds in
  let s := fresh_store r None in
  fst (dispatch always_404 r empty_init s) = Resolved tt
  /\ error_reports (snd (dispatch always_404 r empty_init s))
     = [Some {| message := lit "Not Found"; code := 404; details := None |}].
Proof.
  intros r s.
  destruct (@http_error_path User always_404 r empty_init s
              (lit "https://api.test.com/items")
              (example_callbacks_return always_404 signed_in refresh_succeeds
                 eq_refl)
              eq_refl
              (respond 404 "Not Found" (lit "gone"))
              eq_refl eq_refl (or_introl eq_refl) eq_refl)
    as (Ho & _ & He & _).
  split; assumption.
Defined.

Lemma http_error_with_library_parser_witness :
  (let r := hook always_404 signed_in
              (with_library_parser refresh_succeeds) in
   let s := fresh_store r None in
   fst (dispatch always_404 r empty_init s) = Rejected TypeError
   /\ error_reports (snd (dispatch always_404 r empty_init s)) = [])
  /\ (let r := hook head_404 signed_in
                 (with_library_parser refresh_succeeds) in
      let s := fresh_store r None in
      fst (dispatch head_404 r head_init s) = Resolved tt
      /\ error_reports (snd (dispatch head_404 r head_init s))
         = [Some {| message := lit "Not Found"; code := 404;
                    details := Some [JString []] |}]).
Proof.
  split; intros r s.
  - destruct (@http_error_with_library_parser User always_404 r empty_init s
                (lit "https://api.test.com/items")
                (example_callbacks_return always_404 signed_in
                   (with_library_parser refresh_succeeds) eq_refl)
                eq_refl ascii_engine
                (respond 404 "Not Found" (lit "gone"))
                eq_refl eq_refl (or_introl eq_refl) eq_refl)
      as (_ & _ & _ & _ & Ho & He & _).
    split; assumption.
  - destruct (@http_error_with_library_parser User head_404 r head_init s
                (lit "https://api.test.com/items")
                (example_callbacks_return head_404 signed_in
                   (with_library_parser refresh_succeeds) eq_refl)
                eq_refl ascii_engine
                (respond_no_body 404 "Not Found")
                eq_refl eq_refl (or_introl eq_refl) eq_refl)
      as (_ & _ & _ & _ & Ho & He).
    split; assumption.
Defined.

Lemma failed_refresh_with_library_parser_witness :
  let r := hook always_401 signed_in (with_library_parser refresh_fails) in
  let s := fresh_store r None in
  fst (dispatch always_401 r empty_init s) = Resolved tt
  /\ error_reports (snd (dispatch always_401 r empty_init s))
     = [Some {| message := lit "Unauthorized"; code := 401;
                details := Some [JString []] |}]
  /\ redirects (snd (dispatch always_401 r empty_init s))
     = [lit "/login?code=401&next=/dashboard"].
Proof.
  intros r s.
  destruct (@failed_refresh_with_library_parser User always_401 r empty_init s
              (lit "https://api.test.com/items")
              (example_callbacks_return always_401 signed_in
                 (with_library_parser refresh_fails) eq_refl)
              eq_refl ascii_engine
              (respond 401 "Unauthorized" [])
              (fun _ => Normal None)
              eq_refl eq_refl eq_refl eq_refl eq_refl)
    as (Ho & _ & He & _ & _ & _ & _ & Hr).
  repeat split; assumption.
Defined.

Lemma threshold_outlives_the_call_witness :
  let r := hook always_401 signed_in (with_library_parser refresh_succeeds) in
  let s := fresh_store r None in
  let s' := snd (then_dispatch always_401 r empty_init empty_init s) in
  well_behaved always_401 r
  /\ fst (then_dispatch always_401 r empty_init empty_init s) = Resolved tt
  /\ threshold s' = 5
  /\ fetches s' = 7.
Proof.
  intros r s s'.
  assert (Hwb : well_behaved always_401 r).
  { apply library_parser_well_behaved. intros n. eexists. reflexivity. }
  split; [exact Hwb|].
  exact (@threshold_outlives_the_call User always_401 r empty_init empty_init
           s always_401_unauthorized
           (refresh_succeeds_with_library_parser signed_in) Hwb
           (Nat.le_0_l _)).
Defined.

End FetchPaths.

(* ================================================================== *)
(** * Further properties of the alert channel *)
(* ================================================================== *)

Module AlertMore.
Import JS Alert FetchFacts AlertFacts.

Lemma map_nth_undo A (f g : A -> A) (l : list A) : forall k x,
  nth_error l k = Some x -> g (f x) = x ->
  map_nth k g (map_nth k f l) = l.
Proof.
  induction l as [|y l IH]; intros [|k] x H Hx; simpl in *; try discriminate.
  - injection H as ->. now rewrite Hx.
  - now rewrite (IH k x).
Qed.

Lemma child_index_deeper (tp q : path) :
  List.length q <> 1 -> child_index tp (tp ++ q) = None.
Proof.
  intros Hq. induction tp as [|k tp IH]; simpl.
  - destruct q as [|k [|k' q]]; simpl in *; try reflexivity. now destruct Hq.
  - now rewrite Nat.eqb_refl.
Qed.

Section Tree.
Variable ReactElement : Type.
Implicit Types (doc t : element ReactElement) (tp : path).

(** Rewriting an element and rewriting it back leaves the document as
    it was. *)
Lemma update_at_undo (f g : element ReactElement -> element ReactElement) :
  forall tp doc t,
    subtree tp doc = Some t -> g (f t) = t ->
    update_at tp g (update_at tp f doc) = doc.
Proof.
  induction tp as [|k tp IH]; intros doc t Hsub Hback; simpl in *.
  - injection Hsub as ->. exact Hback.
  - destruct doc as [i s cs]. simpl in *.
    destruct (nth_error cs k) as [c|] eqn:Hc; [| discriminate].
    f_equal. eapply map_nth_undo; [exact Hc|]. now apply (IH c t).
Qed.

End Tree.

Section Alerts.
Variable ReactElement : Type.
Variable g : HulkAlertGlobalOptionsProps.
Implicit Types (doc t : element ReactElement) (tp : path)
  (o : HulkAlertOptionsProps) (node : ReactNode ReactElement).

(** X22. In a document that holds no element with the alert's id, pushing an
    alert and popping it gives the document back: [pop] undoes
    [push]. *)
Theorem pop_undoes_push node o doc tp :
  alertId o <> [] ->
  resolve_target g doc o = Some tp ->
  count_id (alertId o) doc = 0 ->
  truthy node = true ->
  cbind (push g node o doc) (pop g o) = Normal doc.
Proof.
  intros Hid Htarget Hcount Htruthy.
  destruct (@resolve_target_found _ g doc o tp Htarget) as [before Hbefore].
  rewrite (@push_fresh _ g node o doc tp Htarget Htruthy Hcount). cbn [cbind].
  unfold pop, appendChild.
  rewrite target_kept by (reflexivity || assumption).
  destruct (alertId o) as [|c a] eqn:Ha; [now destruct Hid|].
  assert (Hfound : getElementById
            (appendChild doc tp (alert_div (c :: a) node)) (c :: a)
          = Some (tp ++ [List.length (children_of before)])).
  { simpl. unfold alert_div. now apply find_id_appended. }
  unfold appendChild in Hfound. rewrite Hfound, contains_app.
  unfold removeChild. rewrite child_index_app. f_equal.
  eapply update_at_undo; [exact Hbefore|].
  destruct before as [i s cs]. cbn [id_of shown_of children_of].
  now rewrite remove_nth_last.
Qed.

(** X23. When duplicates are not replaced, two pushes into the same
    container stack: the container holds its previous children, then
    the first alert, then the second, whether or not they share an
    id. *)
Theorem pushes_stack node1 node2 o1 o2 doc tp :
  replaceDuplicates g = false ->
  resolve_target g doc o1 = Some tp ->
  resolve_target g doc o2 = Some tp ->
  truthy node1 = true ->
  truthy node2 = true ->
  exists doc2 before after,
    cbind (push g node1 o1 doc) (push g node2 o2) = Normal doc2
    /\ subtree tp doc = Some before
    /\ subtree tp doc2 = Some after
    /\ id_of after = id_of before
    /\ children_of after
       = children_of before
         ++ [alert_div (alertId o1) node1; alert_div (alertId o2) node2].
Proof.
  intros Hkeep Ht1 Ht2 Htruthy1 Htruthy2.
  destruct (@resolve_target_found _ g doc o1 tp Ht1) as [before Hbefore].
  assert (Hpush1 : push g node1 o1 doc
            = Normal (appendChild doc tp (alert_div (alertId o1) node1))).
  { unfold push. now rewrite Ht1, Htruthy1, Hkeep. }
  rewrite Hpush1. cbn [cbind].
  unfold push, appendChild.
  rewrite target_kept by (reflexivity || assumption).
  rewrite Htruthy2, Hkeep. cbn [cbind]. unfold appendChild.
  do 3 eexists. split; [reflexivity|]. split; [exact Hbefore|].
  split; [do 2 apply subtree_update; exact Hbefore|].
  split; [reflexivity|].
  cbn [children_of]. now rewrite <- app_assoc.
Qed.

(** X24. [pop], and a replacing [push], throw [NotFoundError] when the
    element found under the alert's id lies in the container without
    being one of its children: deeper inside, or the container
    itself. *)
Theorem removal_of_a_non_child_throws node o doc tp q :
  resolve_target g doc o = Some tp ->
  getElementById doc (alertId o) = Some (tp ++ q) ->
  List.length q <> 1 ->
  pop g o doc = Throw (Raised (lit "NotFoundError"))
  /\ (replaceDuplicates g = true -> truthy node = true ->
      push g node o doc = Throw (Raised (lit "NotFoundError"))).
Proof.
  intros Htarget Hfound Hq.
  assert (Hid : exists c a, alertId o = c :: a).
  { destruct (alertId o) as [|c a]; [discriminate Hfound | eauto]. }
  destruct Hid as (c & a & Hid).
  split.
  - unfold pop. rewrite Htarget, Hfound, contains_app. rewrite Hid.
    unfold removeChild. now rewrite child_index_deeper.
  - intros Hrep Htruthy. unfold push.
    rewrite Htarget, Htruthy, Hrep, Hfound, contains_app.
    unfold removeChild. now rewrite child_index_deeper.
Qed.

(** X25. [pop] removes the alert: when the element found under the alert's
    id is a child of the container and the only element with that id,
    the container loses this child and nothing else, and the document
    then holds no element with that id. *)
Theorem pop_removes_the_alert o doc tp k :
  resolve_target g doc o = Some tp ->
  getElementById doc (alertId o) = Some (tp ++ [k]) ->
  count_id (alertId o) doc = 1 ->
  exists doc' before after,
    pop g o doc = Normal doc'
    /\ subtree tp doc = Some before
    /\ subtree tp doc' = Some after
    /\ children_of after = remove_nth k (children_of before)
    /\ count_id (alertId o) doc' = 0
    /\ getElementById doc' (alertId o) = None
    /\ resolve_target g doc' o = Some tp.
Proof.
  intros Htarget Hfound Hone.
  destruct (@resolve_target_found _ g doc o tp Htarget) as [before Hbefore].
  set (remove := fun t : element ReactElement =>
         Element (id_of t) (shown_of t) (remove_nth k (children_of t))).
  assert (Hpop : pop g o doc = Normal (update_at tp remove doc)).
  { unfold pop. rewrite Htarget, Hfound, contains_app.
    destruct (alertId o); [discriminate Hfound|].
    unfold removeChild. now rewrite child_index_app. }
  assert (Hzero : count_id (alertId o) (update_at tp remove doc) = 0).
  { destruct (alertId o) as [|c a] eqn:Ha; [discriminate Hfound|].
    simpl in Hfound. apply find_id_points in Hfound.
    destruct Hfound as (n & Hn & Hid).
    rewrite (@subtree_app _ tp [k] doc before Hbefore) in Hn. simpl in Hn.
    destruct (nth_error (children_of before) k) as [child|] eqn:Hchild;
      [| discriminate].
    injection Hn as ->.
    pose proof (@count_update _ (c :: a) remove tp doc before Hbefore) as Hcount.
    destruct before as [i s cs]. unfold remove in Hcount.
    cbn [id_of shown_of children_of count_id] in Hcount, Hchild.
    pose proof (@list_sum_remove_nth _ (count_id (c :: a)) cs k n Hchild) as Hsum.
    assert (Hpos : 1 <= count_id (c :: a) n).
    { destruct n as [j sj csj]. simpl in Hid |- *. rewrite Hid. lia. }
    unfold remove. lia. }
  exists (update_at tp remove doc), before, (remove before).
  split; [exact Hpop|]. split; [exact Hbefore|].
  split; [now apply subtree_update|].
  split; [reflexivity|]. split; [exact Hzero|].
  split.
  - destruct (alertId o); [reflexivity|]. simpl. now apply find_id_none.
  - now apply target_kept.
Qed.

End Alerts.

Import Examples MoreExamples.

Lemma pop_undoes_push_witness :
  cbind (push replacing (RString (lit "saved")) note empty_page)
        (pop replacing note)
  = Normal empty_page.
Proof.
  apply (@pop_undoes_push NoElement replacing (RString (lit "saved")) note
           empty_page [0]); try reflexivity.
  discriminate.
Defined.

Lemma pushes_stack_witness :
  exists doc2 before after,
    cbind (push stacking (RString (lit "first")) note empty_page)
          (push stacking (RString (lit "second")) note)
    = Normal doc2
    /\ subtree [0] empty_page = Some before
    /\ subtree [0] doc2 = Some after
    /\ id_of after = id_of before
    /\ children_of after
       = children_of before
         ++ [alert_div (alertId note) (RString (lit "first"));
             alert_div (alertId note) (RString (lit "second"))].
Proof.
  apply (@pushes_stack NoElement stacking (RString (lit "first"))
           (RString (lit "second")) note note empty_page [0]);
    reflexivity.
Defined.

Lemma removal_of_a_non_child_throws_witness :
  pop replacing note page_with_wrapped_note
    = Throw (Raised (lit "NotFoundError"))
  /\ pop replacing container_as_alert empty_page
     = Throw (Raised (lit "NotFoundError")).
Proof.
  split.
  - apply (@removal_of_a_non_child_throws NoElement replacing RNull note
             page_with_wrapped_note [0] [0; 0]);
      try reflexivity. discriminate.
  - apply (@removal_of_a_non_child_throws NoElement replacing RNull
             container_as_alert empty_page [0] []);
      try reflexivity. discriminate.
Defined.

Lemma pop_removes_the_alert_witness :
  exists doc' : element NoElement,
    pop replacing note
      (Element (lit "body") Nothing
         [Element (lit "alerts") Nothing
            [Element (lit "note") (Text (lit "first")) []]])
    = Normal doc'
    /\ count_id (lit "note") doc' = 0.
Proof.
  destruct (@pop_removes_the_alert NoElement replacing note
              (Element (lit "body") Nothing
                 [Element (lit "alerts") Nothing
                    [Element (lit "note") (Text (lit "first")) []]])
              [0] 0 eq_refl eq_refl eq_refl)
    as (doc' & _ & _ & Hpop & _ & _ & _ & Hzero & _).
  exists doc'. split; assumption.
Defined.

End AlertMore.
